(** * InkyPi button manager

    A shallow embedding of [src/buttons/button_manager.py] (class
    [ButtonManager]) and of the status route of
    [src/buttons/buttons_blueprint.py].

    The manager object is a record; its methods are computations in a
    state-and-exception monad over the manager and a trace of what the
    outside world can observe (log records, handler invocations, calls
    into the GPIO driver).  The background thread of [_run] is a
    function of the finite prefix of driver reads it has been given; it
    is [Pending] when that prefix is used up while the loop still waits
    for edge events.

    What is taken for granted about Python and the platform:
    - an exception is an instance of [Exception], which is what the
      [except Exception] clauses of the class catch;
    - creating and starting the daemon thread succeeds, and so does
      [join(timeout=2)] on it from the primary context;
    - the lock makes each registry update and each write of the running
      flag atomic; the poll thread sees what the primary context did at
      its next test of [self.running], and what a callback did when the
      callback returns or raises. *)

From stdpp Require Import gmap strings list.
From Stdlib Require Import ZArith.

(** ** Values *)

(** A Python callable is known to the manager only by its identity:
    [callback in handlers] and [list.remove] compare with [==], which
    on function objects is identity. *)
Abbreviation Callback := nat (only parsing).

Inductive Exn :=
| ValueError | IndexError | KeyError | RuntimeError | TypeError
| DriverError          (* raised inside gpiod / gpiodevice *)
| HandlerError.        (* raised by a user callback *)

#[global] Instance Exn_eq_dec : EqDecision Exn.
Proof. solve_decision. Defined.

(** How a call into foreign code ends. *)
Inductive Outcome (A : Type) :=
| Returns (a : A)
| Raises (e : Exn).
Arguments Returns {A} a.
Arguments Raises {A} e.

(** [gpiod.LineRequest]: the requested offsets and what [release()] does. *)
Record LineRequest := {
  config : list Z;
  release : Outcome unit
}.

(** The chip found by [gpiodevice.find_chip_by_platform()]. *)
Record Chip := {
  line_offset_from_id : Z → Outcome Z;
  request_lines : list Z → Outcome LineRequest
}.

Record EdgeEvent := { line_offset : Z }.

Inductive Thread := DaemonThread.

(** ** The manager object *)

Record ButtonManager := {
  enabled : bool;
  thread : option Thread;
  running : bool;
  handlers : gmap string (list Callback);
  request : option LineRequest;
  offsets : option (list Z)
}.

Definition set_enabled (b : bool) (m : ButtonManager) : ButtonManager :=
  {| enabled := b; thread := thread m; running := running m;
     handlers := handlers m; request := request m; offsets := offsets m |}.
Definition set_thread (t : option Thread) (m : ButtonManager) : ButtonManager :=
  {| enabled := enabled m; thread := t; running := running m;
     handlers := handlers m; request := request m; offsets := offsets m |}.
Definition set_running (b : bool) (m : ButtonManager) : ButtonManager :=
  {| enabled := enabled m; thread := thread m; running := b;
     handlers := handlers m; request := request m; offsets := offsets m |}.
Definition set_handlers (h : gmap string (list Callback)) (m : ButtonManager)
  : ButtonManager :=
  {| enabled := enabled m; thread := thread m; running := running m;
     handlers := h; request := request m; offsets := offsets m |}.
Definition set_request (r : option LineRequest) (m : ButtonManager)
  : ButtonManager :=
  {| enabled := enabled m; thread := thread m; running := running m;
     handlers := handlers m; request := r; offsets := offsets m |}.
Definition set_offsets (o : option (list Z)) (m : ButtonManager) : ButtonManager :=
  {| enabled := enabled m; thread := thread m; running := running m;
     handlers := handlers m; request := request m; offsets := o |}.

(** Class constants. *)
Definition BUTTONS : list Z := [5; 6; 16; 24]%Z.
Definition LABELS : list string := ["A"; "B"; "C"; "D"].

(** ** What can be observed *)

Inductive LogRecord :=
| info_registered (button : string)
| info_unregistered (button : string)
| warning_disabled
| warning_already_running
| info_started
| error_start_failed (e : Exn)
| info_stopped
| info_gpio_initialized
| error_releasing (e : Exn)
| error_thread (e : Exn)
| info_press (gpio_number : Z) (label : string)
| error_handler (label : string) (e : Exn)
| error_event (e : Exn).

Inductive DriverCall :=
| find_chip_by_platform
| chip_line_offset_from_id (btn : Z)
| chip_request_lines (cfg : list Z)
| request_release
| request_read_edge_events (with_timeout : bool)
| request_wait_edge_events.

Inductive Event :=
| Logged (r : LogRecord)
| Called (handler : Callback) (label : string)   (* handler(label) *)
| Driver (c : DriverCall)
| ThreadStarted
| ThreadJoined.

(** ** The environment of the poll loop

    The manager is shared between the poll thread and the rest of the
    program.  What the rest of the program does to it while the poll
    thread runs is a list of [Action]s: the two registry methods, and
    the two writes of [stop()], namely [with self.lock: self.running =
    False] and the final [_cleanup_gpio()].  Actions reach the poll
    thread at two kinds of places: from the primary context, just before
    one of the loop's tests of [self.running]; and from a callback that
    calls back into the manager while it is being dispatched ([stop()]
    called on the poll thread clears the flag and then fails in [join]). *)
Inductive Action :=
| call_register_handler (button : string) (callback : Callback)
| call_unregister_handler (button : string) (callback : Callback)
| clear_running
| call_cleanup_gpio.

(** One invocation of a callback: what it does to the manager, and
    whether it raises. *)
Record Behaviour := {
  effects : list Action;
  raised : option Exn
}.

(** One element of the sequence returned by [read_edge_events], with
    what the primary context did before the loop reached it. *)
Definition Batch := list (list Action * EdgeEvent).

(** One iteration of [while self.running]: what the primary context did
    before the test, and how the driver answers in this iteration. *)
Record Read := {
  preceding : list Action;
  read_edge_events_timeout : Outcome Batch;    (* ...(timeout_ms=1000) *)
  wait_edge_events : option (Outcome bool);    (* None: no such attribute *)
  read_edge_events : Outcome Batch             (* read_edge_events() *)
}.

(** ** The monad *)

Record Sys := {
  self : ButtonManager;
  trace : list Event
}.

Inductive Res (A : Type) :=
| Return (a : A)
| Raise (e : Exn)
| Pending.
Arguments Return {A} a.
Arguments Raise {A} e.
Arguments Pending {A}.

Definition M (A : Type) : Type := Sys → Sys * Res A.

#[global] Instance M_ret : MRet M := λ A a s, (s, Return a).
#[global] Instance M_bind : MBind M := λ A B f m s,
  match m s with
  | (s', Return a) => f a s'
  | (s', Raise e) => (s', Raise e)
  | (s', Pending) => (s', Pending)
  end.

Definition gets {A} (f : ButtonManager → A) : M A :=
  λ s, (s, Return (f (self s))).
Definition modify (f : ButtonManager → ButtonManager) : M unit :=
  λ s, ({| self := f (self s); trace := trace s |}, Return tt).
Definition emit (e : Event) : M unit :=
  λ s, ({| self := self s; trace := trace s ++ [e] |}, Return tt).
Definition history : M (list Event) :=
  λ s, (s, Return (trace s)).
Definition raise {A} (e : Exn) : M A := λ s, (s, Raise e).
Definition pending {A} : M A := λ s, (s, Pending).

(** [try: m  except Exception as e: h e] *)
Definition try_except {A} (m : M A) (h : Exn → M A) : M A := λ s,
  match m s with
  | (s', Raise e) => h e s'
  | r => r
  end.

(** [try: m  finally: f] *)
Definition try_finally {A} (m : M A) (f : M unit) : M A := λ s,
  match m s with
  | (s', Return a) => (f ;; mret a) s'
  | (s', Raise e) => (f ;; raise e) s'
  | (s', Pending) => (s', Pending)
  end.

Definition logger (r : LogRecord) : M unit := emit (Logged r).

(** A call into the driver: recorded, then it returns or raises. *)
Definition driver {A} (c : DriverCall) (o : Outcome A) : M A :=
  emit (Driver c) ;;
  match o with
  | Returns a => mret a
  | Raises e => raise e
  end.

(** ** Python list operations used by the class *)

(** [l.index(x)]: position of the first element equal to [x];
    [None] stands for the [ValueError]. *)
Fixpoint index (l : list Z) (x : Z) : option nat :=
  match l with
  | [] => None
  | y :: l' => if decide (y = x) then Some 0 else S <$> index l' x
  end.

(** [l.remove(x)] on a list that contains [x]: drops the first element
    equal to [x]. *)
Fixpoint remove (x : Callback) (l : list Callback) : list Callback :=
  match l with
  | [] => []
  | y :: l' => if decide (y = x) then l' else y :: remove x l'
  end.

(** [l[i]] with its [IndexError]. *)
Definition subscript {A} (l : list A) (i : nat) : M A :=
  match l !! i with
  | Some a => mret a
  | None => raise IndexError
  end.

(** [dict.fromkeys(l, v)]: the keys, each once, in order of first
    occurrence. *)
Fixpoint fromkeys (l : list Z) : list Z :=
  match l with
  | [] => []
  | x :: l' => x :: filter (λ y, y ≠ x) (fromkeys l')
  end.

(** [[f(x) for x in l]] *)
Fixpoint comprehension {A B} (f : A → M B) (l : list A) : M (list B) :=
  match l with
  | [] => mret []
  | x :: l' => y ← f x; ys ← comprehension f l'; mret (y :: ys)
  end.

(** ** The class *)

Section ButtonManager.

(** Module constant: whether [import gpiod] succeeded. *)
Variable GPIOD_AVAILABLE : bool.

(** What each callback does when called with a label; it may depend on
    everything that happened before. *)
Variable body : Callback → string → list Event → Behaviour.

Definition __init__ (enable : bool) : ButtonManager :=
  {| enabled := enable && GPIOD_AVAILABLE;
     thread := None;
     running := false;
     handlers := list_to_map ((λ label, (label, [])) <$> LABELS);
     request := None;
     offsets := None |}.

Definition register_handler (button : string) (callback : Callback) : M unit :=
  if decide (button ∈ LABELS) then
    hs ← gets handlers;
    match hs !! button with
    | Some cbs =>
        modify (set_handlers (<[button := cbs ++ [callback]]> hs)) ;;
        logger (info_registered button)
    | None => raise KeyError
    end
  else raise ValueError.

Definition unregister_handler (button : string) (callback : Callback) : M unit :=
  hs ← gets handlers;
  match hs !! button with
  | Some cbs =>
      if decide (callback ∈ cbs) then
        modify (set_handlers (<[button := remove callback cbs]> hs)) ;;
        logger (info_unregistered button)
      else mret tt
  | None => mret tt
  end.

Definition _initialize_gpio (hw : Outcome Chip) : M unit :=
  if negb GPIOD_AVAILABLE then raise RuntimeError
  else
    chip ← driver find_chip_by_platform hw;
    offs ← comprehension
             (λ btn, driver (chip_line_offset_from_id btn)
                            (line_offset_from_id chip btn)) BUTTONS;
    modify (set_offsets (Some offs)) ;;
    let line_config := fromkeys offs in
    req ← driver (chip_request_lines line_config)
                 (request_lines chip line_config);
    modify (set_request (Some req)) ;;
    logger info_gpio_initialized.

Definition _cleanup_gpio : M unit :=
  req ← gets request;
  match req with
  | Some r =>
      try_except
        (driver request_release (release r) ;;
         modify (set_request None))
        (λ e, logger (error_releasing e))
  | None => mret tt
  end.

(** [hw] is what the platform answers if this call gets as far as
    looking for the chip. *)
Definition start (hw : Outcome Chip) : M bool :=
  en ← gets enabled;
  if negb en then logger warning_disabled ;; mret false
  else
    r ← gets running;
    if (r : bool) then logger warning_already_running ;; mret false
    else
      try_except
        (_initialize_gpio hw ;;
         modify (set_running true) ;;
         modify (set_thread (Some DaemonThread)) ;;
         emit ThreadStarted ;;
         logger info_started ;;
         mret true)
        (λ e,
         logger (error_start_failed e) ;;
         modify (set_enabled false) ;;
         mret false).

Definition stop : M unit :=
  modify (set_running false) ;;
  th ← gets thread;
  match th with
  | Some _ => emit ThreadJoined ;; logger info_stopped
  | None => mret tt
  end ;;
  _cleanup_gpio.

(** An [Action] carried out on the manager.  An exception of the call
    belongs to whoever made it (the primary context, or the callback,
    whose own outcome is its [raised] field), not to the poll loop. *)
Definition perform1 (a : Action) : M unit :=
  match a with
  | call_register_handler button callback =>
      try_except (register_handler button callback) (λ _, mret tt)
  | call_unregister_handler button callback =>
      unregister_handler button callback
  | clear_running => modify (set_running false)
  | call_cleanup_gpio => _cleanup_gpio
  end.

Fixpoint perform (acts : list Action) : M unit :=
  match acts with
  | [] => mret tt
  | a :: acts' => perform1 a ;; perform acts'
  end.

(** [handler(label)] *)
Definition call (handler : Callback) (label : string) : M unit :=
  past ← history;
  let b := body handler label past in
  emit (Called handler label) ;;
  perform (effects b) ;;
  match raised b with
  | Some e => raise e
  | None => mret tt
  end.

(** [try: handler(label)  except Exception as e: logger.error(...)] *)
Definition guarded_call (label : string) (handler : Callback) : M unit :=
  try_except (call handler label) (λ e, logger (error_handler label e)).

(** [for handler in handlers: ...] *)
Fixpoint for_handlers (label : string) (hs : list Callback) : M unit :=
  match hs with
  | [] => mret tt
  | handler :: hs' => guarded_call label handler ;; for_handlers label hs'
  end.

Definition _handle_button_event (event : EdgeEvent) : M unit :=
  try_except
    (offs ← gets offsets;
     match offs with
     | None => mret tt
     | Some offs =>
         i ← match index offs (line_offset event) with
             | Some i => mret i
             | None => raise ValueError
             end;
         gpio_number ← subscript BUTTONS i;
         label ← subscript LABELS i;
         logger (info_press gpio_number label) ;;
         hs ← gets handlers;
         snapshot ← match hs !! label with
                    | Some cbs => mret cbs
                    | None => raise KeyError
                    end;
         for_handlers label snapshot
     end)
    (λ e, logger (error_event e)).

(** How a [for] loop is left. *)
Inductive LoopExit := Exhausted | Break.

(** [for event in events: if not self.running: break; ...] *)
Fixpoint for_events (events : Batch) : M LoopExit :=
  match events with
  | [] => mret Exhausted
  | (acts, event) :: events' =>
      perform acts ;;
      r ← gets running;
      if negb r then mret Break
      else _handle_button_event event ;; for_events events'
  end.

(** The read at the top of the loop body; [None] is the [continue]. *)
Definition read_events (rd : Read) : M (option Batch) :=
  try_except
    (events ← driver (request_read_edge_events true)
                     (read_edge_events_timeout rd);
     mret (Some events))
    (λ e,
     if decide (e = TypeError) then
       ready ← match wait_edge_events rd with
               | Some w => driver request_wait_edge_events w
               | None => mret true
               end;
       if negb ready then mret None
       else
         events ← driver (request_read_edge_events false)
                         (read_edge_events rd);
         mret (Some events)
     else raise e).

(** [while self.running: ...] *)
Fixpoint while_running (reads : list Read) : M unit :=
  match reads with
  | [] =>
      r ← gets running;
      if negb r then mret tt
      else
        req ← gets request;
        match req with
        | None => mret tt
        | Some _ => pending
        end
  | rd :: reads' =>
      perform (preceding rd) ;;
      r ← gets running;
      if negb r then mret tt
      else
        req ← gets request;
        match req with
        | None => mret tt
        | Some _ =>
            events ← read_events rd;
            match events with
            | None => while_running reads'
            | Some events => for_events events ;; while_running reads'
            end
        end
  end.

Definition _run (reads : list Read) : M unit :=
  try_finally
    (try_except
       (while_running reads)
       (λ e, logger (error_thread e) ;; modify (set_running false)))
    _cleanup_gpio.

End ButtonManager.

(** ** The status route *)

Inductive StatusResponse :=
| not_available
| status (st_enabled st_running : bool) (st_buttons : list string).

Definition button_status (button_manager : option ButtonManager) : StatusResponse :=
  match button_manager with
  | None => not_available
  | Some bm => status (enabled bm) (running bm) LABELS
  end.

(** The "enabled" and "running" entries of the response; the response
    for a missing manager has no "running" entry. *)
Definition response_enabled (r : StatusResponse) : bool :=
  match r with
  | not_available => false
  | status en _ _ => en
  end.

Definition response_running (r : StatusResponse) : option bool :=
  match r with
  | not_available => None
  | status _ ru _ => Some ru
  end.

(** ** Histories

    What can happen to a manager during the life of the process: calls
    of its public methods from the primary context, dispatch passes,
    and stretches of the poll thread.  An exception of a call is the
    caller's; the manager lives on in the state the call left. *)

Inductive Op :=
| op_register_handler (button : string) (callback : Callback)
| op_unregister_handler (button : string) (callback : Callback)
| op_start (hw : Outcome Chip)
| op_stop
| op_handle_button_event (event : EdgeEvent)
| op_run (reads : list Read).

Definition exec (GPIOD_AVAILABLE : bool)
    (body : Callback → string → list Event → Behaviour)
    (op : Op) (s : Sys) : Sys :=
  match op with
  | op_register_handler button callback => (register_handler button callback s).1
  | op_unregister_handler button callback =>
      (unregister_handler button callback s).1
  | op_start hw => (start GPIOD_AVAILABLE hw s).1
  | op_stop => (stop s).1
  | op_handle_button_event event => (_handle_button_event body event s).1
  | op_run reads => (_run body reads s).1
  end.

Definition exec_all (GPIOD_AVAILABLE : bool)
    (body : Callback → string → list Event → Behaviour)
    (ops : list Op) (s : Sys) : Sys :=
  foldl (λ s op, exec GPIOD_AVAILABLE body op s) s ops.

(** A freshly constructed manager, nothing observed yet. *)
Definition fresh (GPIOD_AVAILABLE enable : bool) : Sys :=
  {| self := __init__ GPIOD_AVAILABLE enable; trace := [] |}.

(** ** Sample inputs *)

(** Callbacks that return and leave the manager alone. *)
Definition plain_body : Callback → string → list Event → Behaviour :=
  λ _ _ _, {| effects := []; raised := None |}.

(** Callback 1 raises whenever it is called; callback 3 asks the manager
    to stop; the others return. *)
Definition rough_body : Callback → string → list Event → Behaviour :=
  λ h _ _,
    match h with
    | 1 => {| effects := []; raised := Some HandlerError |}
    | 3 => {| effects := [clear_running]; raised := None |}
    | _ => {| effects := []; raised := None |}
    end.


(** A chip on which every line has its number as offset, as gpiod does
    for integer identifiers. *)
Definition plain_chip : Chip :=
  {| line_offset_from_id := Returns;
     request_lines := λ cfg, Returns {| config := cfg; release := Returns tt |} |}.

Definition plain_request : LineRequest :=
  {| config := BUTTONS; release := Returns tt |}.

(** A started manager with callbacks 1, 2 and again 1 for "B". *)
Definition busy_manager : ButtonManager :=
  {| enabled := true;
     thread := Some DaemonThread;
     running := true;
     handlers := <["B" := [1; 2; 1]]> (handlers (__init__ true true));
     request := Some plain_request;
     offsets := Some BUTTONS |}.

Definition busy : Sys := {| self := busy_manager; trace := [] |}.

Definition press (offset : Z) : EdgeEvent := {| line_offset := offset |}.

(** A read that returns the given events, the primary context being idle. *)
Definition reads_events (events : list EdgeEvent) : Read :=
  {| preceding := [];
     read_edge_events_timeout := Returns ((λ e, ([], e)) <$> events);
     wait_edge_events := None;
     read_edge_events := Returns [] |}.

(** A read on which the driver fails. *)
Definition read_fails : Read :=
  {| preceding := [];
     read_edge_events_timeout := Raises DriverError;
     wait_edge_events := None;
     read_edge_events := Raises DriverError |}.

(** ** Reasoning about computations *)

(** [keeps R m]: running [m] takes every state to an [R]-related one,
    however [m] ends. *)
Definition keeps {A} (R : relation Sys) (m : M A) : Prop :=
  ∀ s, R s (m s).1.

(** [returns m]: [m] neither raises nor stays pending. *)
Definition returns {A} (m : M A) : Prop :=
  ∀ s, ∃ a, (m s).2 = Return a.

(** [settles m]: [m] returns or raises. *)
Definition settles {A} (m : M A) : Prop :=
  ∀ s, (m s).2 ≠ Pending.

(** ** Vocabulary of the statements *)

(** The handler invocations recorded in a trace, oldest first. *)
Definition calls (t : list Event) : list (Callback * string) :=
  omap (λ e, match e with Called h l => Some (h, l) | _ => None end) t.

(** Same invocations before and after. *)
Definition same_calls (s s' : Sys) : Prop :=
  calls (trace s') = calls (trace s).

(** The trace has grown, and by no handler invocation. *)
Definition grows_quietly (s s' : Sys) : Prop :=
  ∃ t, trace s' = trace s ++ t ∧ calls t = [].

(** After the poll thread has ended: the session handle is cleared,
    unless [release()] raised. *)
Definition released (m : ButtonManager) : Prop :=
  request m = None ∨ ∃ r e, request m = Some r ∧ release r = Raises e.

(** The manager object itself is untouched; only the trace grows. *)
Definition same_self (s s' : Sys) : Prop := self s' = self s.

(** What no method does: change the keys of the registry, or enable a
    manager that is disabled. *)
Definition lifetime_frame (s s' : Sys) : Prop :=
  dom (handlers (self s')) = dom (handlers (self s)) ∧
  (enabled (self s') = true → enabled (self s) = true).

(** The running flag and the session handle are as they were. *)
Definition same_session (s s' : Sys) : Prop :=
  running (self s') = running (self s) ∧
  request (self s') = request (self s).

(** The chip maps the buttons to [offs] and grants the request [req]. *)
Definition acquires (chip : Chip) (offs : list Z) (req : LineRequest) : Prop :=
  Forall2 (λ btn o, line_offset_from_id chip btn = Returns o) BUTTONS offs ∧
  request_lines chip (fromkeys offs) = Returns req.

(** [R] tolerates the replacement of the sequence of a registered
    identity. *)
Definition tolerates_handlers (R : relation Sys) : Prop :=
  ∀ s button cbs cbs',
    handlers (self s) !! button = Some cbs →
    R s (modify (set_handlers (<[button := cbs']> (handlers (self s)))) s).1.

(** The registry methods called as [Action]s. *)
Definition registry_action (a : Action) : Prop :=
  match a with
  | call_register_handler _ _ | call_unregister_handler _ _ => True
  | clear_running | call_cleanup_gpio => False
  end.

(** The callbacks of [hs], called with [label], do only [allowed]
    actions. *)
Definition tame (allowed : Action → Prop)
    (body : Callback → string → list Event → Behaviour)
    (label : string) (hs : list Callback) : Prop :=
  ∀ h past, h ∈ hs → Forall allowed (effects (body h label past)).

Definition all_tame (allowed : Action → Prop)
    (body : Callback → string → list Event → Behaviour) : Prop :=
  ∀ h label past, Forall allowed (effects (body h label past)).

(** The primary context does only [allowed] actions while the poll
    thread works on these inputs. *)
Definition batch_allowed (allowed : Action → Prop) (events : Batch) : Prop :=
  Forall (λ ae, Forall allowed ae.1) events.

Definition outcome_allowed (allowed : Action → Prop) (o : Outcome Batch) : Prop :=
  match o with
  | Returns events => batch_allowed allowed events
  | Raises _ => True
  end.

Definition read_allowed (allowed : Action → Prop) (rd : Read) : Prop :=
  Forall allowed (preceding rd) ∧
  outcome_allowed allowed (read_edge_events_timeout rd) ∧
  outcome_allowed allowed (read_edge_events rd).

(** ** The wiring of the application

    [setup_button_handlers] of [buttons_blueprint.py].  The function
    defines the closure [log_on_button_press] and registers it for the
    four buttons; each call of [setup_button_handlers] makes a new
    closure, whose identity is the argument here.  The blueprint module
    has a logger of its own: the records it writes are the result. *)

Inductive BlueprintRecord :=
| info_button_pressed (label : string)
| info_handlers_registered.

(** What [log_on_button_press(label)] writes to the blueprint's logger. *)
Definition log_on_button_press (label : string) : list BlueprintRecord :=
  [info_button_pressed label].

(** What it does to the manager: nothing, and it returns. *)
Definition log_on_button_press_behaviour : Behaviour :=
  {| effects := []; raised := None |}.

Definition setup_button_handlers (log_on_button_press : Callback)
  : M (list BlueprintRecord) :=
  register_handler "A" log_on_button_press ;;
  register_handler "B" log_on_button_press ;;
  register_handler "C" log_on_button_press ;;
  register_handler "D" log_on_button_press ;;
  mret [info_handlers_registered].

(** ** More vocabulary *)

(** The calls into the driver recorded in a trace, oldest first. *)
Definition driver_calls (t : list Event) : list DriverCall :=
  omap (λ e, match e with Driver c => Some c | _ => None end) t.

(** A state the manager can be in: constructed, then used. *)
Definition reachable (GPIOD_AVAILABLE : bool)
    (body : Callback → string → list Event → Behaviour) (s : Sys) : Prop :=
  ∃ enable ops,
    s = exec_all GPIOD_AVAILABLE body ops (fresh GPIOD_AVAILABLE enable).

(** What every method but [start] does to the manager at most: replace
    sequences of the registry, clear the running flag, drop the
    session. *)
Definition wear (s s' : Sys) : Prop :=
  enabled (self s') = enabled (self s) ∧
  thread (self s') = thread (self s) ∧
  offsets (self s') = offsets (self s) ∧
  dom (handlers (self s')) = dom (handlers (self s)) ∧
  (running (self s') = true → running (self s) = true) ∧
  (∀ r, request (self s') = Some r → request (self s) = Some r).

(** What holds of the manager between any two calls. *)
Definition well_formed (GPIOD_AVAILABLE : bool) (m : ButtonManager) : Prop :=
  dom (handlers m) = list_to_set LABELS ∧
  (enabled m = true → GPIOD_AVAILABLE = true) ∧
  (running m = true → thread m = Some DaemonThread) ∧
  (running m = true → is_Some (offsets m)) ∧
  (is_Some (request m) → is_Some (offsets m)) ∧
  (∀ offs, offsets m = Some offs → length offs = length BUTTONS).

(** A manager that is disabled and has neither session nor table stays
    so; the driver is not called, no thread is made and no callback is
    invoked. *)
Definition idle_frame (s s' : Sys) : Prop :=
  enabled (self s) = false → request (self s) = None →
  offsets (self s) = None →
  enabled (self s') = false ∧ request (self s') = None ∧
  offsets (self s') = None ∧
  thread (self s') = thread (self s) ∧
  driver_calls (trace s') = driver_calls (trace s) ∧
  calls (trace s') = calls (trace s).

(** The label an event is for: the label at the position of the first
    entry of the table that equals the event's offset, if that position
    names a button. *)
Definition resolve (offs : list Z) (event : EdgeEvent) : option string :=
  i ← index offs (line_offset event);
  _ ← BUTTONS !! i;
  LABELS !! i.

(** The invocations an event is to cause on a manager: the callbacks
    registered for its label, in order. *)
Definition expected_calls (m : ButtonManager) (event : EdgeEvent)
  : list (Callback * string) :=
  match offsets m with
  | Some offs =>
      match resolve offs event with
      | Some label => (λ h, (h, label)) <$> default [] (handlers m !! label)
      | None => []
      end
  | None => []
  end.

(** A turn of the loop in which the primary context is idle and the
    driver returns [events]. *)
Definition returns_events (rd : Read) (events : list EdgeEvent) : Prop :=
  preceding rd = [] ∧
  read_edge_events_timeout rd = Returns ((λ e, ([], e)) <$> events).

(** The callbacks registered on [m] leave the manager alone. *)
Definition registered_are_quiet
    (body : Callback → string → list Event → Behaviour)
    (m : ButtonManager) : Prop :=
  ∀ label cbs h past,
    handlers m !! label = Some cbs → h ∈ cbs →
    effects (body h label past) = [].

(** ** Rules for the monad *)

(** Unfold the monad in the goal. *)
Ltac mrun :=
  repeat progress
    unfold mbind, mret, M_bind, M_ret, gets, modify, emit, logger, history,
      raise, pending, try_except, try_finally, driver, subscript;
  cbn [fst snd self trace].

Section Combinators.
Context {A B : Type}.

Lemma returns_settles (m : M A) : returns m → settles m.
Proof. intros H s. destruct (H s) as [a ->]. done. Qed.

Lemma returns_ret (a : A) : returns (mret a).
Proof. intros s. by exists a. Qed.

Lemma returns_bind (m : M A) (f : A → M B) :
  returns m → (∀ a, returns (f a)) → returns (m ≫= f).
Proof.
  intros Hm Hf s. mrun. destruct (Hm s) as [a Ha].
  destruct (m s) as [s' r]; simpl in Ha; subst r. apply Hf.
Qed.

Lemma settles_bind (m : M A) (f : A → M B) :
  settles m → (∀ a, settles (f a)) → settles (m ≫= f).
Proof.
  intros Hm Hf s. mrun. specialize (Hm s).
  destruct (m s) as [s' [a|e|]]; simpl in *; [apply Hf | done | done].
Qed.

Lemma returns_try_except (m : M A) (h : Exn → M A) :
  settles m → (∀ e, returns (h e)) → returns (try_except m h).
Proof.
  intros Hm Hh s. mrun. specialize (Hm s).
  destruct (m s) as [s' [a|e|]]; simpl in *; [by exists a | apply Hh | done].
Qed.

Lemma settles_try_except (m : M A) (h : Exn → M A) :
  settles m → (∀ e, settles (h e)) → settles (try_except m h).
Proof.
  intros Hm Hh s. mrun. specialize (Hm s).
  destruct (m s) as [s' [a|e|]]; simpl in *; [done | apply Hh | done].
Qed.

Lemma settles_raise (e : Exn) : settles (raise (A:=A) e).
Proof. by intros s. Qed.

Context (R : relation Sys) `{!PreOrder R}.

Lemma keeps_ret (a : A) : keeps R (mret a).
Proof. intros s. simpl. reflexivity. Qed.

Lemma keeps_raise (e : Exn) : keeps R (raise (A:=A) e).
Proof. intros s. simpl. reflexivity. Qed.

Lemma keeps_pending : keeps R (pending (A:=A)).
Proof. intros s. simpl. reflexivity. Qed.

Lemma keeps_gets (f : ButtonManager → A) : keeps R (gets f).
Proof. intros s. simpl. reflexivity. Qed.

Lemma keeps_bind (m : M A) (f : A → M B) :
  keeps R m → (∀ a, keeps R (f a)) → keeps R (m ≫= f).
Proof.
  intros Hm Hf s. mrun. specialize (Hm s).
  destruct (m s) as [s' [a|e|]]; simpl in *; [|done|done].
  etransitivity; [exact Hm | apply Hf].
Qed.

Lemma keeps_try_except (m : M A) (h : Exn → M A) :
  keeps R m → (∀ e, keeps R (h e)) → keeps R (try_except m h).
Proof.
  intros Hm Hh s. mrun. specialize (Hm s).
  destruct (m s) as [s' [a|e|]]; simpl in *; [done| |done].
  etransitivity; [exact Hm | apply Hh].
Qed.

Lemma keeps_try_finally (m : M A) (f : M unit) :
  keeps R m → keeps R f → keeps R (try_finally m f).
Proof.
  intros Hm Hf s. mrun. specialize (Hm s). specialize (Hf (m s).1).
  destruct (m s) as [s' [a|e|]]; simpl in *; [| |done];
    (etransitivity; [exact Hm|]); by destruct (f s') as [s'' [[]|?|]].
Qed.

End Combinators.

(** ** Termination of the methods *)

Lemma returns_gets {A} (f : ButtonManager → A) : returns (gets f).
Proof. intros s. by eexists. Qed.

Lemma returns_modify f : returns (modify f).
Proof. intros s. by eexists. Qed.

Lemma returns_emit e : returns (emit e).
Proof. intros s. by eexists. Qed.

Lemma returns_logger r : returns (logger r).
Proof. apply returns_emit. Qed.

Lemma settles_driver {A} c (o : Outcome A) : settles (driver c o).
Proof. intros s. mrun. by destruct o. Qed.

Lemma settles_register_handler button callback :
  settles (register_handler button callback).
Proof.
  intros s. unfold register_handler. case_decide; [|done].
  mrun. by destruct (handlers (self s) !! button).
Qed.

Lemma returns_unregister_handler button callback :
  returns (unregister_handler button callback).
Proof.
  intros s. unfold unregister_handler. mrun.
  destruct (handlers (self s) !! button); [|by eexists].
  case_decide; by eexists.
Qed.

Lemma returns__cleanup_gpio : returns _cleanup_gpio.
Proof.
  intros s. unfold _cleanup_gpio. mrun.
  destruct (request (self s)) as [r|]; [|by eexists].
  destruct (release r); by eexists.
Qed.

Lemma returns_perform1 a : returns (perform1 a).
Proof.
  destruct a; simpl.
  - apply returns_try_except; [apply settles_register_handler|].
    intros _. apply returns_ret.
  - apply returns_unregister_handler.
  - apply returns_modify.
  - apply returns__cleanup_gpio.
Qed.

Lemma returns_perform acts : returns (perform acts).
Proof.
  induction acts as [|a acts IH]; simpl; [apply returns_ret|].
  apply returns_bind; [apply returns_perform1 | done].
Qed.

Lemma settles_comprehension {A B} (f : A → M B) l :
  (∀ x, settles (f x)) → settles (comprehension f l).
Proof.
  intros Hf. induction l as [|x l IH]; simpl; [apply returns_settles, returns_ret|].
  apply settles_bind; [done|intros y].
  apply settles_bind; [done|intros ys; apply returns_settles, returns_ret].
Qed.

Lemma returns_stop : returns stop.
Proof.
  unfold stop. apply returns_bind; [apply returns_modify|intros _].
  apply returns_bind; [apply returns_gets|intros th].
  apply returns_bind; [|intros _; apply returns__cleanup_gpio].
  destruct th; [|apply returns_ret].
  apply returns_bind; [apply returns_emit|intros _; apply returns_logger].
Qed.

Section Termination.
Context (GPIOD_AVAILABLE : bool).
Context (body : Callback → string → list Event → Behaviour).

Lemma settles_call handler label : settles (call body handler label).
Proof.
  intros s. unfold call. mrun.
  destruct (returns_perform (effects (body handler label (trace s)))
              {| self := self s; trace := trace s ++ [Called handler label] |})
    as [[] Hp].
  destruct (perform _ _) as [s' r]; simpl in Hp; subst r.
  by destruct (raised _).
Qed.

Lemma returns_for_handlers label hs : returns (for_handlers body label hs).
Proof.
  induction hs as [|h hs IH]; simpl; [apply returns_ret|].
  apply returns_bind; [|done].
  apply returns_try_except; [apply settles_call|].
  intros e. apply returns_logger.
Qed.

Lemma settles_subscript {A} (l : list A) i : settles (subscript l i).
Proof. intros s. unfold subscript. by destruct (l !! i). Qed.

Lemma returns__handle_button_event event :
  returns (_handle_button_event body event).
Proof.
  unfold _handle_button_event.
  apply returns_try_except; [|intros e; apply returns_logger].
  apply settles_bind; [apply returns_settles, returns_gets|].
  intros [offs|]; [|apply returns_settles, returns_ret].
  apply settles_bind.
  { destruct (index _ _);
      [apply returns_settles, returns_ret|apply settles_raise]. }
  intros i. apply settles_bind; [apply settles_subscript|intros gpio].
  apply settles_bind; [apply settles_subscript|intros label].
  apply settles_bind; [apply returns_settles, returns_logger|intros _].
  apply settles_bind; [apply returns_settles, returns_gets|intros hs].
  apply settles_bind.
  { destruct (hs !! label);
      [apply returns_settles, returns_ret|apply settles_raise]. }
  intros cbs. apply returns_settles, returns_for_handlers.
Qed.

Lemma returns_for_events events : returns (for_events body events).
Proof.
  induction events as [|[acts event] events IH]; simpl; [apply returns_ret|].
  apply returns_bind; [apply returns_perform|intros _].
  apply returns_bind; [apply returns_gets|intros r].
  destruct r; simpl; [|apply returns_ret].
  apply returns_bind; [apply returns__handle_button_event|done].
Qed.

Lemma returns_start hw : returns (start GPIOD_AVAILABLE hw).
Proof.
  unfold start.
  apply returns_bind; [apply returns_gets|intros en].
  destruct en; simpl.
  2:{ apply returns_bind; [apply returns_logger|intros _; apply returns_ret]. }
  apply returns_bind; [apply returns_gets|intros r].
  destruct r.
  { apply returns_bind; [apply returns_logger|intros _; apply returns_ret]. }
  apply returns_try_except.
  2:{ intros e. apply returns_bind; [apply returns_logger|intros _].
      apply returns_bind; [apply returns_modify|intros _; apply returns_ret]. }
  apply settles_bind.
  2:{ intros _. apply returns_settles.
      repeat (apply returns_bind;
              [first [apply returns_modify|apply returns_emit|apply returns_logger]
              |intros _]).
      apply returns_ret. }
  unfold _initialize_gpio.
  destruct GPIOD_AVAILABLE; cbn [negb]; [|apply settles_raise].
  apply settles_bind; [apply settles_driver|intros chip].
  apply settles_bind.
  { apply settles_comprehension. intros b. apply settles_driver. }
  intros offs. apply settles_bind; [apply returns_settles, returns_modify|intros _].
  apply settles_bind; [apply settles_driver|intros req].
  apply settles_bind; [apply returns_settles, returns_modify|intros _].
  apply returns_settles, returns_logger.
Qed.

End Termination.

(** Pointwise forms of the rules for [≫=]. *)
Section Pointwise.
Context {A B : Type} (R : relation Sys) `{!PreOrder R}.

Lemma within_bind (m : M A) (f : A → M B) s :
  R s (m s).1 →
  (∀ a, (m s).2 = Return a → R (m s).1 (f a (m s).1).1) →
  R s ((m ≫= f) s).1.
Proof.
  intros Hm Hf. unfold mbind, M_bind.
  destruct (m s) as [s' [a|e|]]; simpl in *; [|done|done].
  etransitivity; [exact Hm|by apply Hf].
Qed.

Lemma within_try_except (m : M A) (h : Exn → M A) s :
  R s (m s).1 → (∀ e, keeps R (h e)) → R s (try_except m h s).1.
Proof.
  intros Hm Hh. unfold try_except.
  destruct (m s) as [s' [a|e|]]; simpl in *; [done| |done].
  etransitivity; [exact Hm|apply Hh].
Qed.

Lemma within_gets (g : ButtonManager → A) (f : A → M B) s :
  R s (f (g (self s)) s).1 → R s ((gets g ≫= f) s).1.
Proof. done. Qed.

End Pointwise.

(** ** Frame rules

    [R] relates a state to the states the code may take it to.  The
    rules below say which writes of the class [R] has to tolerate for
    each method to stay within [R]. *)

Section Frames.
Context (R : relation Sys) `{!PreOrder R}.
Hypothesis R_log : ∀ r, keeps R (logger r).
Hypothesis R_driver : ∀ c, keeps R (emit (Driver c)).

Lemma keeps_driver {A} c (o : Outcome A) : keeps R (driver c o).
Proof.
  unfold driver. apply keeps_bind; [done|apply R_driver|intros _].
  destruct o; [by apply keeps_ret|by apply keeps_raise].
Qed.

Lemma keeps_register_handler button callback :
  tolerates_handlers R → keeps R (register_handler button callback).
Proof.
  intros HR s. unfold register_handler.
  case_decide; [|by apply keeps_raise].
  apply within_gets.
  destruct (handlers (self s) !! button) as [cbs|] eqn:E; [|by apply keeps_raise].
  apply within_bind; [done|by eapply HR|intros _ _; apply R_log].
Qed.

Lemma keeps_unregister_handler button callback :
  tolerates_handlers R → keeps R (unregister_handler button callback).
Proof.
  intros HR s. unfold unregister_handler.
  apply within_gets.
  destruct (handlers (self s) !! button) as [cbs|] eqn:E; [|by apply keeps_ret].
  case_decide; [|by apply keeps_ret].
  apply within_bind; [done|by eapply HR|intros _ _; apply R_log].
Qed.

Lemma keeps__cleanup_gpio :
  keeps R (modify (set_request None)) → keeps R _cleanup_gpio.
Proof.
  intros HR. unfold _cleanup_gpio.
  apply keeps_bind; [done|by apply keeps_gets|intros [r|]]; [|by apply keeps_ret].
  apply keeps_try_except; [done| |intros e; apply R_log].
  apply keeps_bind; [done|apply keeps_driver|done].
Qed.

Lemma keeps_registry_action a :
  tolerates_handlers R → registry_action a → keeps R (perform1 a).
Proof.
  intros HR. destruct a; simpl; try done; intros _.
  - apply keeps_try_except; [done|by apply keeps_register_handler|].
    intros _. by apply keeps_ret.
  - by apply keeps_unregister_handler.
Qed.

Lemma keeps_perform1 a :
  tolerates_handlers R →
  keeps R (modify (set_running false)) →
  keeps R (modify (set_request None)) →
  keeps R (perform1 a).
Proof.
  intros HR Hrun Hreq. destruct a; try by apply keeps_registry_action.
  - exact Hrun.
  - by apply keeps__cleanup_gpio.
Qed.

(** The actions [R] tolerates. *)
Variable allowed : Action → Prop.
Hypothesis R_allowed : ∀ a, allowed a → keeps R (perform1 a).

Lemma keeps_perform acts : Forall allowed acts → keeps R (perform acts).
Proof.
  induction 1 as [|a acts Ha _ IH]; simpl; [by apply keeps_ret|].
  apply keeps_bind; [done|by apply R_allowed|done].
Qed.

Context (body : Callback → string → list Event → Behaviour).
Hypothesis R_called : ∀ h l, keeps R (emit (Called h l)).

Lemma keeps_call label h :
  tame allowed body label [h] → keeps R (call body h label).
Proof.
  intros Ht s. unfold call.
  change (R s ((emit (Called h label) ;;
                perform (effects (body h label (trace s))) ;;
                match raised (body h label (trace s)) with
                | Some e => raise e
                | None => mret tt
                end) s).1).
  apply keeps_bind; [done|apply R_called|intros _].
  apply keeps_bind; [done| |intros _].
  - apply keeps_perform, Ht. set_solver.
  - destruct (raised _); [by apply keeps_raise|by apply keeps_ret].
Qed.

Lemma keeps_for_handlers label hs :
  tame allowed body label hs → keeps R (for_handlers body label hs).
Proof.
  induction hs as [|h hs IH]; intros Ht; simpl; [by apply keeps_ret|].
  apply keeps_bind; [done| |intros _].
  - apply keeps_try_except; [done| |intros e; apply R_log].
    apply keeps_call. intros h' past ->%list_elem_of_singleton.
    apply Ht. set_solver.
  - apply IH. intros h' past Hin. apply Ht. set_solver.
Qed.

(** One dispatch pass, from a state whose registered callbacks are tame. *)
Lemma _handle_button_event_within s event :
  (∀ label cbs, handlers (self s) !! label = Some cbs →
                tame allowed body label cbs) →
  R s (_handle_button_event body event s).1.
Proof.
  intros Ht. unfold _handle_button_event.
  apply within_try_except; [done| |intros e; apply R_log].
  mrun.
  destruct (offsets (self s)) as [offs|]; simpl; [|reflexivity].
  destruct (index offs (line_offset event)) as [i|]; simpl; [|reflexivity].
  destruct (BUTTONS !! i) as [gpio|]; simpl; [|reflexivity].
  destruct (LABELS !! i) as [label|]; simpl; [|reflexivity].
  destruct (handlers (self s) !! label) as [cbs|] eqn:E; simpl.
  - etransitivity; [apply (R_log (info_press gpio label) s)|].
    apply keeps_for_handlers. by apply Ht.
  - apply (R_log (info_press gpio label) s).
Qed.

Lemma keeps__handle_button_event event :
  all_tame allowed body → keeps R (_handle_button_event body event).
Proof.
  intros Ht s. apply _handle_button_event_within.
  intros label cbs _ h past _. apply Ht.
Qed.

Lemma keeps_for_events events :
  all_tame allowed body → batch_allowed allowed events →
  keeps R (for_events body events).
Proof.
  intros Ht. induction 1 as [|[acts event] events Ha _ IH]; simpl;
    [by apply keeps_ret|].
  apply keeps_bind; [done|by apply keeps_perform|intros _].
  apply keeps_bind; [done|by apply keeps_gets|intros r].
  destruct r; simpl; [|by apply keeps_ret].
  apply keeps_bind; [done|by apply keeps__handle_button_event|done].
Qed.

Lemma keeps_read_events rd : keeps R (read_events rd).
Proof.
  unfold read_events. apply keeps_try_except; [done| |intros e].
  - apply keeps_bind; [done|apply keeps_driver|intros ?; by apply keeps_ret].
  - case_decide; [|by apply keeps_raise].
    apply keeps_bind; [done| |intros ready].
    + destruct (wait_edge_events rd); [apply keeps_driver|by apply keeps_ret].
    + destruct ready; simpl; [|by apply keeps_ret].
      apply keeps_bind; [done|apply keeps_driver|intros ?; by apply keeps_ret].
Qed.

Lemma read_events_allowed rd s events :
  read_allowed allowed rd →
  (read_events rd s).2 = Return (Some events) → batch_allowed allowed events.
Proof.
  intros (_ & H1 & H2). unfold read_events. mrun.
  destruct (read_edge_events_timeout rd) as [evs|e]; simpl.
  { intros [= <-]. exact H1. }
  case_decide; [|done].
  destruct (wait_edge_events rd) as [[[]|e']|]; simpl; try done;
    destruct (read_edge_events rd); simpl; try done; by intros [= <-].
Qed.

Lemma keeps_while_running reads :
  all_tame allowed body → Forall (read_allowed allowed) reads →
  keeps R (while_running body reads).
Proof.
  intros Ht. induction 1 as [|rd reads Hrd _ IH]; simpl.
  - apply keeps_bind; [done|by apply keeps_gets|intros r].
    destruct r; simpl; [|by apply keeps_ret].
    apply keeps_bind; [done|by apply keeps_gets|intros [?|]];
      [by apply keeps_pending|by apply keeps_ret].
  - apply keeps_bind; [done|apply keeps_perform, Hrd|intros _].
    apply keeps_bind; [done|by apply keeps_gets|intros r].
    destruct r; simpl; [|by apply keeps_ret].
    apply keeps_bind; [done|by apply keeps_gets|intros [?|]];
      [|by apply keeps_ret].
    intros s. mrun.
    pose proof (keeps_read_events rd s) as Hk.
    pose proof (read_events_allowed rd s) as Hb.
    destruct (read_events rd s) as [s' [[events|]|e|]]; simpl in *; try done.
    + etransitivity; [exact Hk|].
      apply (keeps_bind R (for_events body events) (λ _, while_running body reads));
        [apply keeps_for_events; [done|by apply Hb]|done].
    + etransitivity; [exact Hk|apply IH].
Qed.

End Frames.

(** ** The handler invocations in a trace *)

Lemma calls_app t1 t2 : calls (t1 ++ t2) = calls t1 ++ calls t2.
Proof. apply omap_app. Qed.

#[global] Instance same_calls_preorder : PreOrder same_calls.
Proof.
  split; [by intros s|]. intros s1 s2 s3 H1 H2.
  unfold same_calls in *. congruence.
Qed.

Lemma same_calls_emit e :
  (∀ h l, e ≠ Called h l) → keeps same_calls (emit e).
Proof.
  intros He s. unfold same_calls. simpl. rewrite calls_app. simpl.
  destruct e; try by rewrite app_nil_r. by destruct (He handler label).
Qed.

Lemma same_calls_modify f : keeps same_calls (modify f).
Proof. by intros s. Qed.

(** Whatever else is done to the manager, only [handler(label)] adds an
    invocation. *)
Lemma same_calls_perform acts : keeps same_calls (perform acts).
Proof.
  apply (keeps_perform same_calls (λ _, True)); [|by apply Forall_true].
  intros a _. apply keeps_perform1; try apply _.
  - intros r. by apply same_calls_emit.
  - intros c. by apply same_calls_emit.
  - by intros s button cbs cbs' _.
  - apply same_calls_modify.
  - apply same_calls_modify.
Qed.

#[global] Instance same_self_preorder : PreOrder same_self.
Proof.
  split; [by intros s|]. intros s1 s2 s3 H1 H2.
  unfold same_self in *. congruence.
Qed.

Lemma same_self_emit e : keeps same_self (emit e).
Proof. by intros s. Qed.

(** ** Stepping through a computation *)

Lemma bind_Return {A B} (m : M A) (f : A → M B) s s' a :
  m s = (s', Return a) → (m ≫= f) s = f a s'.
Proof. intros H. unfold mbind, M_bind. by rewrite H. Qed.

Lemma try_except_Return {A} (m : M A) h s s' a :
  m s = (s', Return a) → try_except m h s = (s', Return a).
Proof. intros H. unfold try_except. by rewrite H. Qed.

Lemma returns_eq {A} (m : M A) s :
  returns m → ∃ a, m s = ((m s).1, Return a).
Proof.
  intros H. destruct (H s) as [a Ha]. exists a.
  by destruct (m s); simpl in *; subst.
Qed.

Lemma returns_unit_eq (m : M unit) s :
  returns m → m s = ((m s).1, Return tt).
Proof. intros H. by destruct (returns_eq m s H) as [[] Ha]. Qed.

(** ** Python's [index] *)

Lemma index_Some l x i : index l x = Some i → l !! i = Some x.
Proof.
  revert i. induction l as [|y l IH]; intros i; simpl; [done|].
  case_decide; [by intros [= <-]; subst|].
  destruct (index l x) as [j|]; simpl; [|done]. intros [= <-]. by apply IH.
Qed.

Lemma index_None l x : index l x = None ↔ x ∉ l.
Proof.
  induction l as [|y l IH]; simpl;
    [split; [intros _; apply not_elem_of_nil|done]|].
  case_decide; [subst; split; [done|intros Hn; destruct Hn; left]|].
  destruct (index l x) as [j|]; simpl.
  - split; [done|]. intros Hn. exfalso. apply Hn. right.
    destruct (decide (x ∈ l)) as [|Hnl]; [done|]. by apply IH in Hnl.
  - split; [|done]. intros _. apply not_elem_of_cons. split; [done|by apply IH].
Qed.

Lemma index_NoDup l x i : NoDup l → l !! i = Some x → index l x = Some i.
Proof.
  intros Hnd Hi.
  destruct (index l x) as [j|] eqn:E.
  - f_equal. apply index_Some in E. by eapply NoDup_lookup.
  - apply index_None in E. by apply list_elem_of_lookup_2 in Hi.
Qed.

(** ** A dispatch pass *)

Section Dispatch.
Context (body : Callback → string → list Event → Behaviour).

Lemma returns_guarded_call label h : returns (guarded_call body label h).
Proof.
  apply returns_try_except; [apply settles_call|intros e; apply returns_logger].
Qed.

Lemma guarded_call_calls label h s :
  calls (trace (guarded_call body label h s).1) = calls (trace s) ++ [(h, label)].
Proof.
  unfold guarded_call, call. mrun.
  set (s1 := {| self := self s; trace := trace s ++ [Called h label] |}).
  pose proof (same_calls_perform (effects (body h label (trace s))) s1) as Hc.
  destruct (returns_perform (effects (body h label (trace s))) s1) as [[] Hr].
  destruct (perform _ s1) as [s2 r]; simpl in *; subst r.
  unfold same_calls in Hc. simpl in Hc. rewrite calls_app in Hc. simpl in Hc.
  destruct (raised _); simpl; rewrite ?calls_app, Hc; simpl; by rewrite ?app_nil_r.
Qed.

Lemma for_handlers_cons label h hs s :
  for_handlers body label (h :: hs) s
  = for_handlers body label hs (guarded_call body label h s).1.
Proof.
  simpl.
  by erewrite bind_Return; [|apply returns_unit_eq, returns_guarded_call].
Qed.

(** Every handler of the snapshot is invoked, once per occurrence, in
    the order of the snapshot. *)
Lemma for_handlers_calls label hs s :
  calls (trace (for_handlers body label hs s).1)
  = calls (trace s) ++ ((λ h, (h, label)) <$> hs).
Proof.
  revert s. induction hs as [|h hs IH]; intros s.
  - simpl. by rewrite app_nil_r.
  - rewrite for_handlers_cons, IH, guarded_call_calls, <-app_assoc. done.
Qed.

(** The pass for an event whose offset is found in the table. *)
Lemma _handle_button_event_known s event offs i gpio label cbs :
  offsets (self s) = Some offs →
  index offs (line_offset event) = Some i →
  BUTTONS !! i = Some gpio →
  LABELS !! i = Some label →
  handlers (self s) !! label = Some cbs →
  _handle_button_event body event s
  = for_handlers body label cbs
      {| self := self s; trace := trace s ++ [Logged (info_press gpio label)] |}.
Proof.
  intros Ho Hi Hb Hl Hh. unfold _handle_button_event.
  set (s1 := {| self := self s; trace := _ |}).
  rewrite (returns_unit_eq (for_handlers body label cbs) s1)
    by apply returns_for_handlers.
  apply try_except_Return. mrun. rewrite Ho, Hi. simpl.
  rewrite Hb, Hl. simpl. rewrite Hh. simpl. fold s1.
  apply returns_unit_eq, returns_for_handlers.
Qed.

(** The pass for an event whose offset is not in the table. *)
Lemma _handle_button_event_unknown s event offs :
  offsets (self s) = Some offs →
  line_offset event ∉ offs →
  _handle_button_event body event s
  = ({| self := self s;
        trace := trace s ++ [Logged (error_event ValueError)] |}, Return tt).
Proof.
  intros Ho Hn. apply index_None in Hn.
  unfold _handle_button_event. mrun. by rewrite Ho, Hn.
Qed.

(** Before [_initialize_gpio] there is no table. *)
Lemma _handle_button_event_no_table s event :
  offsets (self s) = None →
  _handle_button_event body event s = (s, Return tt).
Proof.
  intros Ho. unfold _handle_button_event. mrun. by rewrite Ho.
Qed.

End Dispatch.

Lemma LABELS_BUTTONS i label :
  LABELS !! i = Some label → ∃ gpio, BUTTONS !! i = Some gpio.
Proof.
  intros H. apply lookup_lt_Some in H. apply lookup_lt_is_Some_2. exact H.
Qed.

(** The invocations of a pass for an event found in a table of
    distinct offsets. *)
Lemma pass_calls (body : Callback → string → list Event → Behaviour)
    s event offs i label cbs :
  offsets (self s) = Some offs →
  NoDup offs →
  offs !! i = Some (line_offset event) →
  LABELS !! i = Some label →
  handlers (self s) !! label = Some cbs →
  ∃ s', _handle_button_event body event s = (s', Return tt) ∧
        calls (trace s') = calls (trace s) ++ ((λ h, (h, label)) <$> cbs).
Proof.
  intros Ho Hnd Hi Hl Hh.
  destruct (LABELS_BUTTONS i label Hl) as [gpio Hb].
  rewrite (_handle_button_event_known body s event offs i gpio label cbs)
    by (try done; by apply index_NoDup).
  eexists. split; [apply returns_unit_eq, returns_for_handlers|].
  rewrite for_handlers_calls. simpl. rewrite calls_app. simpl.
  by rewrite app_nil_r.
Qed.

(** ** The writes every method makes *)

#[global] Instance lifetime_frame_preorder : PreOrder lifetime_frame.
Proof.
  split; [by intros s|]. intros s1 s2 s3 [H1 H1'] [H2 H2'].
  split; [congruence|auto].
Qed.

Lemma lifetime_frame_emit e : keeps lifetime_frame (emit e).
Proof. by intros s. Qed.

Lemma lifetime_frame_handlers : tolerates_handlers lifetime_frame.
Proof.
  intros s button cbs cbs' Hb. split; [|done]. simpl.
  apply dom_insert_lookup_L. by eexists.
Qed.

Lemma lifetime_frame_modify f :
  (∀ m, handlers (f m) = handlers m) →
  (∀ m, enabled (f m) = true → enabled m = true) →
  keeps lifetime_frame (modify f).
Proof. intros Hh He s. split; simpl; [by rewrite Hh|apply He]. Qed.

Lemma lifetime_frame_perform1 a : keeps lifetime_frame (perform1 a).
Proof.
  apply keeps_perform1; try apply _.
  - intros r. apply lifetime_frame_emit.
  - intros c. apply lifetime_frame_emit.
  - apply lifetime_frame_handlers.
  - by apply lifetime_frame_modify.
  - by apply lifetime_frame_modify.
Qed.

Lemma keeps_comprehension {A B} (R : relation Sys) `{!PreOrder R}
    (f : A → M B) l :
  (∀ x, keeps R (f x)) → keeps R (comprehension f l).
Proof.
  intros Hf. induction l as [|x l IH]; simpl; [by apply keeps_ret|].
  apply keeps_bind; [done|done|intros y].
  apply keeps_bind; [done|done|intros ys; by apply keeps_ret].
Qed.

Section Lifetime.
Context (GPIOD_AVAILABLE : bool).
Context (body : Callback → string → list Event → Behaviour).

Local Ltac atoms :=
  first [ apply lifetime_frame_emit
        | apply (lifetime_frame_emit (Logged _))
        | by apply lifetime_frame_modify
        | apply keeps_driver; [apply _|intros ?; apply lifetime_frame_emit]
        | apply keeps_ret; apply _
        | apply keeps_raise; apply _
        | apply keeps_gets; apply _ ].

Lemma lifetime_frame__cleanup_gpio : keeps lifetime_frame _cleanup_gpio.
Proof.
  apply keeps__cleanup_gpio; try apply _; try (intros ?; atoms).
Qed.

Lemma lifetime_frame__initialize_gpio hw :
  keeps lifetime_frame (_initialize_gpio GPIOD_AVAILABLE hw).
Proof.
  unfold _initialize_gpio. destruct GPIOD_AVAILABLE; cbn [negb]; [|atoms].
  apply keeps_bind; [apply _|atoms|intros chip].
  apply keeps_bind; [apply _| |intros offs].
  { apply keeps_comprehension; [apply _|]. intros btn. atoms. }
  apply keeps_bind; [apply _|atoms|intros _].
  apply keeps_bind; [apply _|atoms|intros req].
  apply keeps_bind; [apply _|atoms|intros _]. atoms.
Qed.

Lemma lifetime_frame_start hw :
  keeps lifetime_frame (start GPIOD_AVAILABLE hw).
Proof.
  unfold start.
  apply keeps_bind; [apply _|atoms|intros en].
  destruct en; cbn [negb].
  2:{ apply keeps_bind; [apply _|atoms|intros _; atoms]. }
  apply keeps_bind; [apply _|atoms|intros r].
  destruct r.
  { apply keeps_bind; [apply _|atoms|intros _; atoms]. }
  apply keeps_try_except; [apply _| |intros e].
  - apply keeps_bind; [apply _|apply lifetime_frame__initialize_gpio|intros _].
    repeat (apply keeps_bind; [apply _|atoms|intros _]). atoms.
  - repeat (apply keeps_bind; [apply _|atoms|intros _]). atoms.
Qed.

Lemma lifetime_frame_stop : keeps lifetime_frame stop.
Proof.
  unfold stop.
  apply keeps_bind; [apply _|atoms|intros _].
  apply keeps_bind; [apply _|atoms|intros th].
  apply keeps_bind; [apply _| |intros _; apply lifetime_frame__cleanup_gpio].
  destruct th; [|atoms]. apply keeps_bind; [apply _|atoms|intros _; atoms].
Qed.

Lemma lifetime_frame_register_handler button callback :
  keeps lifetime_frame (register_handler button callback).
Proof.
  apply keeps_register_handler; try apply _; try (intros ?; atoms).
  apply lifetime_frame_handlers.
Qed.

Lemma lifetime_frame_unregister_handler button callback :
  keeps lifetime_frame (unregister_handler button callback).
Proof.
  apply keeps_unregister_handler; try apply _; try (intros ?; atoms).
  apply lifetime_frame_handlers.
Qed.

Lemma lifetime_frame__handle_button_event event :
  keeps lifetime_frame (_handle_button_event body event).
Proof.
  apply (keeps__handle_button_event lifetime_frame) with (allowed := λ _, True);
    try apply _; try (intros; atoms).
  - intros a _. apply lifetime_frame_perform1.
  - intros h label past. by apply Forall_true.
Qed.

Lemma lifetime_frame_while_running reads :
  keeps lifetime_frame (while_running body reads).
Proof.
  apply (keeps_while_running lifetime_frame) with (allowed := λ _, True);
    try apply _; try (intros; atoms).
  - intros a _. apply lifetime_frame_perform1.
  - intros h label past. by apply Forall_true.
  - apply Forall_true. intros rd. repeat split; try by apply Forall_true.
    + destruct (read_edge_events_timeout rd); simpl; [|done].
      apply Forall_true. intros ?. by apply Forall_true.
    + destruct (read_edge_events rd); simpl; [|done].
      apply Forall_true. intros ?. by apply Forall_true.
Qed.

Lemma lifetime_frame__run reads : keeps lifetime_frame (_run body reads).
Proof.
  unfold _run.
  apply keeps_try_finally; [apply _| |apply lifetime_frame__cleanup_gpio].
  apply keeps_try_except; [apply _|apply lifetime_frame_while_running|intros e].
  apply keeps_bind; [apply _|atoms|intros _; atoms].
Qed.

Lemma lifetime_frame_exec op s :
  lifetime_frame s (exec GPIOD_AVAILABLE body op s).
Proof.
  destruct op; simpl.
  - apply lifetime_frame_register_handler.
  - apply lifetime_frame_unregister_handler.
  - apply lifetime_frame_start.
  - apply lifetime_frame_stop.
  - apply lifetime_frame__handle_button_event.
  - apply lifetime_frame__run.
Qed.

Lemma lifetime_frame_exec_all ops s :
  lifetime_frame s (exec_all GPIOD_AVAILABLE body ops s).
Proof.
  revert s. induction ops as [|op ops IH]; intros s; simpl; [reflexivity|].
  etransitivity; [apply lifetime_frame_exec|apply IH].
Qed.

End Lifetime.

(** ** The registry methods, step by step *)

Lemma register_handler_invalid button callback s :
  button ∉ LABELS → register_handler button callback s = (s, Raise ValueError).
Proof. intros Hn. unfold register_handler. by case_decide. Qed.

Lemma register_handler_valid button callback s cbs :
  button ∈ LABELS →
  handlers (self s) !! button = Some cbs →
  register_handler button callback s
  = ({| self := set_handlers (<[button := cbs ++ [callback]]> (handlers (self s)))
                             (self s);
        trace := trace s ++ [Logged (info_registered button)] |}, Return tt).
Proof.
  intros Hin Hb. unfold register_handler. case_decide; [|done].
  mrun. by rewrite Hb.
Qed.

Lemma remove_first x l :
  x ∈ l → ∃ l1 l2, l = l1 ++ x :: l2 ∧ (x ∉ l1) ∧ remove x l = l1 ++ l2.
Proof.
  induction l as [|y l IH]; [intros Hin; by apply elem_of_nil in Hin|].
  intros Hin. simpl. case_decide as Hy.
  - subst y. exists [], l. split_and!; [done|apply not_elem_of_nil|done].
  - apply elem_of_cons in Hin as [->|Hin]; [done|].
    destruct (IH Hin) as (l1 & l2 & -> & Hn & ->).
    exists (y :: l1), l2. split_and!; [done| |done].
    apply not_elem_of_cons. split; [congruence|done].
Qed.

Lemma unregister_handler_present button callback s cbs :
  handlers (self s) !! button = Some cbs →
  callback ∈ cbs →
  unregister_handler button callback s
  = ({| self := set_handlers (<[button := remove callback cbs]> (handlers (self s)))
                             (self s);
        trace := trace s ++ [Logged (info_unregistered button)] |}, Return tt).
Proof.
  intros Hb Hin. unfold unregister_handler. mrun. rewrite Hb. by case_decide.
Qed.

Lemma unregister_handler_absent button callback s :
  (∀ cbs, handlers (self s) !! button = Some cbs → callback ∉ cbs) →
  unregister_handler button callback s = (s, Return tt).
Proof.
  intros Hn. unfold unregister_handler. mrun.
  destruct (handlers (self s) !! button) as [cbs|]; [|done].
  case_decide; [|done]. by destruct (Hn cbs).
Qed.

(** ** [start] and [stop], step by step *)

Section Lifecycle.
Context (GPIOD_AVAILABLE : bool).

Lemma start_disabled hw s :
  enabled (self s) = false →
  start GPIOD_AVAILABLE hw s
  = ({| self := self s; trace := trace s ++ [Logged warning_disabled] |},
     Return false).
Proof. intros He. unfold start. mrun. by rewrite He. Qed.

Lemma start_already_running hw s :
  enabled (self s) = true →
  running (self s) = true →
  start GPIOD_AVAILABLE hw s
  = ({| self := self s; trace := trace s ++ [Logged warning_already_running] |},
     Return false).
Proof. intros He Hr. unfold start. mrun. rewrite He. simpl. by rewrite Hr. Qed.

Lemma start_failure hw s e :
  enabled (self s) = true →
  running (self s) = false →
  (_initialize_gpio GPIOD_AVAILABLE hw s).2 = Raise e →
  start GPIOD_AVAILABLE hw s
  = (let s1 := (_initialize_gpio GPIOD_AVAILABLE hw s).1 in
     {| self := set_enabled false (self s1);
        trace := trace s1 ++ [Logged (error_start_failed e)] |},
     Return false).
Proof.
  intros He Hr Hi. unfold start. mrun. rewrite He. simpl. rewrite Hr. simpl.
  destruct (_initialize_gpio GPIOD_AVAILABLE hw s) as [s1 r].
  simpl in Hi. by subst r.
Qed.

Lemma start_success hw s :
  enabled (self s) = true →
  running (self s) = false →
  (_initialize_gpio GPIOD_AVAILABLE hw s).2 = Return tt →
  start GPIOD_AVAILABLE hw s
  = (let s1 := (_initialize_gpio GPIOD_AVAILABLE hw s).1 in
     {| self := set_thread (Some DaemonThread) (set_running true (self s1));
        trace := trace s1 ++ [ThreadStarted; Logged info_started] |},
     Return true).
Proof.
  intros He Hr Hi. unfold start. mrun. rewrite He. simpl. rewrite Hr. simpl.
  destruct (_initialize_gpio GPIOD_AVAILABLE hw s) as [s1 r].
  simpl in Hi. subst r. simpl. by rewrite <-app_assoc.
Qed.

Lemma start_true hw s s' :
  start GPIOD_AVAILABLE hw s = (s', Return true) →
  running (self s') = true ∧ thread (self s') = Some DaemonThread ∧
  enabled (self s) = true ∧ running (self s) = false.
Proof.
  unfold start. mrun.
  destruct (enabled (self s)) eqn:He; simpl; [|done].
  destruct (running (self s)) eqn:Hr; simpl; [done|].
  destruct (_initialize_gpio GPIOD_AVAILABLE hw s) as [s1 [[]|e|]]; simpl;
    [|done|done].
  by intros [= <-].
Qed.

Lemma stop_returns s :
  ∃ s', stop s = (s', Return tt) ∧ running (self s') = false ∧
        enabled (self s') = enabled (self s) ∧
        handlers (self s') = handlers (self s).
Proof.
  unfold stop, _cleanup_gpio. mrun.
  destruct s as [[en [t|] ru hs [[cfg [[]|e]]|] offs] tr]; simpl; by eexists.
Qed.

End Lifecycle.

(** ** The loop over a batch *)

Section Batches.
Context (body : Callback → string → list Event → Behaviour).

Lemma for_events_cons acts event rest s :
  running (self (perform acts s).1) = true →
  for_events body ((acts, event) :: rest) s
  = for_events body rest
      (_handle_button_event body event (perform acts s).1).1.
Proof.
  intros Hr. simpl.
  erewrite bind_Return; [|apply returns_unit_eq, returns_perform].
  mrun. rewrite Hr. simpl.
  by rewrite (returns_unit_eq (_handle_button_event body event) _
                (returns__handle_button_event body event)).
Qed.

Lemma for_events_break acts event rest s :
  running (self (perform acts s).1) = false →
  for_events body ((acts, event) :: rest) s = ((perform acts s).1, Return Break).
Proof.
  intros Hr. simpl.
  erewrite bind_Return; [|apply returns_unit_eq, returns_perform].
  mrun. by rewrite Hr.
Qed.

Lemma for_events_app_Exhausted pre post s s1 :
  for_events body pre s = (s1, Return Exhausted) →
  for_events body (pre ++ post) s = for_events body post s1.
Proof.
  revert s. induction pre as [|[acts event] pre IH]; intros s.
  - simpl. by intros [= ->].
  - destruct (running (self (perform acts s).1)) eqn:Hr.
    + rewrite <-app_comm_cons, !for_events_cons by done. apply IH.
    + rewrite for_events_break by done. done.
Qed.

Lemma for_events_app_Break pre post s s1 :
  for_events body pre s = (s1, Return Break) →
  for_events body (pre ++ post) s = (s1, Return Break).
Proof.
  revert s. induction pre as [|[acts event] pre IH]; intros s.
  - simpl. by intros [=].
  - destruct (running (self (perform acts s).1)) eqn:Hr.
    + rewrite <-app_comm_cons, !for_events_cons by done. apply IH.
    + rewrite <-app_comm_cons, !for_events_break by done. done.
Qed.

Lemma for_events_single event s :
  running (self s) = true →
  for_events body [([], event)] s
  = ((_handle_button_event body event s).1, Return Exhausted).
Proof. intros Hr. by rewrite for_events_cons. Qed.

End Batches.

(** ** The poll loop, step by step *)

Lemma read_events_timeout rd events s :
  read_edge_events_timeout rd = Returns events →
  read_events rd s
  = ({| self := self s;
        trace := trace s ++ [Driver (request_read_edge_events true)] |},
     Return (Some events)).
Proof. intros H. unfold read_events. mrun. by rewrite H. Qed.

Lemma read_events_error rd e s :
  read_edge_events_timeout rd = Raises e →
  e ≠ TypeError →
  read_events rd s
  = ({| self := self s;
        trace := trace s ++ [Driver (request_read_edge_events true)] |},
     Raise e).
Proof. intros H He. unfold read_events. mrun. rewrite H. simpl. by case_decide. Qed.

Section Loop.
Context (body : Callback → string → list Event → Behaviour).

(** One turn of the loop that gets a batch from the driver. *)
Lemma while_running_cons rd reads s s1 r events s2 :
  (perform (preceding rd) s).1 = s1 →
  running (self s1) = true →
  request (self s1) = Some r →
  read_events rd s1 = (s2, Return (Some events)) →
  while_running body (rd :: reads) s
  = while_running body reads (for_events body events s2).1.
Proof.
  intros Hp Hr Hq Hrd. simpl.
  erewrite bind_Return; [|apply returns_unit_eq, returns_perform].
  rewrite Hp. mrun. rewrite Hr. simpl. rewrite Hq, Hrd.
  destruct (returns_for_events body events s2) as [x Hx].
  destruct (for_events body events s2) as [s3 r3]; simpl in *. by subst r3.
Qed.

(** The loop is left when the flag is found cleared. *)
Lemma while_running_stopped rd reads s :
  running (self (perform (preceding rd) s).1) = false →
  while_running body (rd :: reads) s = ((perform (preceding rd) s).1, Return tt).
Proof.
  intros Hr. simpl.
  erewrite bind_Return; [|apply returns_unit_eq, returns_perform].
  mrun. by rewrite Hr.
Qed.

(** The thread outlives the reads it was given. *)
Lemma while_running_nil s r :
  running (self s) = true →
  request (self s) = Some r →
  while_running body [] s = (s, Pending).
Proof. intros Hr Hq. simpl. mrun. rewrite Hr. simpl. by rewrite Hq. Qed.

Lemma while_running_nil_state s : (while_running body [] s).1 = s.
Proof.
  simpl. mrun. destruct (running (self s)); simpl; [|done].
  by destruct (request (self s)).
Qed.

Lemma _run_Pending reads s s' :
  while_running body reads s = (s', Pending) →
  _run body reads s = (s', Pending).
Proof. intros H. unfold _run. mrun. by rewrite H. Qed.

Lemma _run_Return reads s s' :
  while_running body reads s = (s', Return tt) →
  _run body reads s = ((_cleanup_gpio s').1, Return tt).
Proof.
  intros H. unfold _run. mrun. rewrite H.
  destruct (returns__cleanup_gpio s') as [[] Hc].
  destruct (_cleanup_gpio s') as [s2 r2]; simpl in *. by subst r2.
Qed.

Lemma _run_Raise reads s s' e :
  while_running body reads s = (s', Raise e) →
  _run body reads s
  = ((_cleanup_gpio
        {| self := set_running false (self s');
           trace := trace s' ++ [Logged (error_thread e)] |}).1, Return tt).
Proof.
  intros H. unfold _run. mrun. rewrite H.
  set (s1 := {| self := set_running false (self s'); trace := _ |}).
  destruct (returns__cleanup_gpio s1) as [[] Hc].
  destruct (_cleanup_gpio s1) as [s2 r2]; simpl in *. by subst r2.
Qed.

(** What [_cleanup_gpio] leaves behind. *)
Lemma _cleanup_gpio_released s :
  running (self (_cleanup_gpio s).1) = running (self s) ∧
  (request (self (_cleanup_gpio s).1) = None ∨
   ∃ r e, request (self (_cleanup_gpio s).1) = Some r ∧ release r = Raises e).
Proof.
  unfold _cleanup_gpio. mrun.
  destruct s as [[en th ru hs [[cfg [[]|e]]|] offs] tr]; simpl;
    (split; [done|]); [by left| |by left].
  right. by eexists _, _.
Qed.

End Loop.

(** ** Dispatch leaves the manager alone when the callbacks do *)

#[global] Instance same_session_preorder : PreOrder same_session.
Proof.
  split; [by intros s|]. intros s1 s2 s3 [H1 H1'] [H2 H2'].
  split; congruence.
Qed.



Section Quiet.
Context (body : Callback → string → list Event → Behaviour).


Lemma same_self_for_handlers label hs :
  tame (λ _, False) body label hs → keeps same_self (for_handlers body label hs).
Proof.
  apply keeps_for_handlers; try apply _; done.
Qed.

Lemma tame_no_effects label hs :
  (∀ h past, h ∈ hs → effects (body h label past) = []) →
  tame (λ _, False) body label hs.
Proof. intros H h past Hin. by rewrite H. Qed.

End Quiet.

(** ** Acquisition of the lines *)

Lemma comprehension_offsets chip l offs s :
  Forall2 (λ btn o, line_offset_from_id chip btn = Returns o) l offs →
  comprehension
    (λ btn, driver (chip_line_offset_from_id btn) (line_offset_from_id chip btn))
    l s
  = ({| self := self s;
        trace := trace s ++ (Driver ∘ chip_line_offset_from_id <$> l) |},
     Return offs).
Proof.
  intros H. revert s. induction H as [|btn o l offs Hb _ IH]; intros s.
  - simpl. rewrite app_nil_r. by destruct s.
  - simpl. mrun. rewrite Hb. simpl. rewrite IH. simpl.
    by rewrite <-app_assoc.
Qed.

Lemma _initialize_gpio_acquires chip offs req s :
  acquires chip offs req →
  _initialize_gpio true (Returns chip) s
  = ({| self := set_request (Some req) (set_offsets (Some offs) (self s));
        trace := trace s ++ Driver find_chip_by_platform
                   :: (Driver ∘ chip_line_offset_from_id <$> BUTTONS)
                   ++ [Driver (chip_request_lines (fromkeys offs));
                       Logged info_gpio_initialized] |},
     Return tt).
Proof.
  intros [Ho Hq]. unfold _initialize_gpio. cbn [negb].
  erewrite bind_Return; [|reflexivity].
  erewrite bind_Return; [|by apply comprehension_offsets].
  mrun. rewrite Hq. simpl. do 2 f_equal. by rewrite <-!app_assoc.
Qed.

(** ** More about traces and batches *)

#[global] Instance grows_quietly_preorder : PreOrder grows_quietly.
Proof.
  split.
  - intros s. exists []. by rewrite app_nil_r.
  - intros s1 s2 s3 (t1 & H1 & C1) (t2 & H2 & C2). exists (t1 ++ t2).
    split; [by rewrite H2, H1, app_assoc|]. by rewrite calls_app, C1, C2.
Qed.

Lemma grows_quietly_emit e :
  (∀ h l, e ≠ Called h l) → keeps grows_quietly (emit e).
Proof.
  intros He s. exists [e]. split; [done|].
  destruct e; try done. by destruct (He handler label).
Qed.

Lemma grows_quietly_modify f : keeps grows_quietly (modify f).
Proof. intros s. exists []. by rewrite app_nil_r. Qed.

Lemma grows_quietly_perform acts : keeps grows_quietly (perform acts).
Proof.
  apply (keeps_perform grows_quietly (λ _, True)); [|by apply Forall_true].
  intros a _. apply keeps_perform1; try apply _.
  - intros r. by apply grows_quietly_emit.
  - intros c. by apply grows_quietly_emit.
  - intros s button cbs cbs' _. apply grows_quietly_modify.
  - apply grows_quietly_modify.
  - apply grows_quietly_modify.
Qed.

Section Contained.
Context (body : Callback → string → list Event → Behaviour).

(** The trace of one guarded call. *)
Lemma guarded_call_trace label h s :
  ∃ s' t,
    guarded_call body label h s = (s', Return tt) ∧ calls t = [] ∧
    trace s' = trace s ++ Called h label :: t ++
               match raised (body h label (trace s)) with
               | Some e => [Logged (error_handler label e)]
               | None => []
               end.
Proof.
  unfold guarded_call, call. mrun.
  set (s1 := {| self := self s; trace := trace s ++ [Called h label] |}).
  destruct (grows_quietly_perform (effects (body h label (trace s))) s1)
    as (t & Ht & Hc).
  destruct (returns_perform (effects (body h label (trace s))) s1) as [[] Hr].
  destruct (perform _ s1) as [s2 r]; simpl in *; subst r.
  destruct (raised _); simpl; eexists _, t; (split; [done|split; [done|]]);
    simpl; rewrite Ht, <-?app_assoc; simpl; by rewrite ?app_nil_r.
Qed.

Lemma for_handlers_foldl label hs s :
  for_handlers body label hs s
  = (foldl (λ s h, (guarded_call body label h s).1) s hs, Return tt).
Proof.
  revert s. induction hs as [|h hs IH]; intros s; [done|].
  by rewrite for_handlers_cons, IH.
Qed.

(** A batch of events none of which is in the table. *)
Lemma for_events_unknown unknowns offs s :
  running (self s) = true →
  offsets (self s) = Some offs →
  Forall (λ e, line_offset e ∉ offs) unknowns →
  ∃ s', for_events body ((λ e, ([], e)) <$> unknowns) s = (s', Return Exhausted) ∧
        self s' = self s ∧ calls (trace s') = calls (trace s).
Proof.
  intros Hr Ho Hu. revert s Hr Ho.
  induction Hu as [|e unknowns He _ IH]; intros s Hr Ho; [by exists s|].
  rewrite fmap_cons, for_events_cons by done. simpl perform. cbn [fst mret M_ret].
  rewrite (_handle_button_event_unknown body s e offs) by done. cbn [fst].
  set (s1 := {| self := self s; trace := _ |}).
  destruct (IH s1) as (s' & E & S & C); [done..|].
  exists s'. split_and!; [done|done|]. rewrite C. subst s1. simpl.
  rewrite calls_app. simpl. by rewrite app_nil_r.
Qed.

End Contained.

(** ** The scenario of two presses *)

Section Scenario.
Context (body : Callback → string → list Event → Behaviour).

(** A pass for an event found at the head of the table, when the
    manager has the callbacks [cbs] for "A" and they leave the manager
    alone. *)
Lemma pass_for_A s event o offs cbs :
  offsets (self s) = Some (o :: offs) →
  line_offset event = o →
  handlers (self s) !! "A" = Some cbs →
  (∀ h past, h ∈ cbs → effects (body h "A" past) = []) →
  ∃ s', _handle_button_event body event s = (s', Return tt) ∧
        self s' = self s ∧
        calls (trace s') = calls (trace s) ++ ((λ h, (h, "A")) <$> cbs).
Proof.
  intros Ho He Hh Hq.
  assert (index (o :: offs) (line_offset event) = Some 0) as Hi.
  { simpl. by rewrite decide_True. }
  rewrite (_handle_button_event_known body s event (o :: offs) 0 5%Z "A" cbs)
    by done.
  set (s1 := {| self := self s; trace := _ |}).
  exists (for_handlers body "A" cbs s1).1. split_and!.
  - apply returns_unit_eq, returns_for_handlers.
  - apply (same_self_for_handlers body "A" cbs (tame_no_effects body "A" cbs Hq) s1).
  - rewrite for_handlers_calls. subst s1. simpl.
    rewrite calls_app. simpl. by rewrite app_nil_r.
Qed.

End Scenario.

(** [register_handler] on a manager whose registry has the labels as
    keys. *)
Lemma register_handler_on_labels button callback s :
  dom (handlers (self s)) = list_to_set LABELS →
  (button ∉ LABELS →
   register_handler button callback s = (s, Raise ValueError)) ∧
  (button ∈ LABELS →
   ∃ cbs s',
     handlers (self s) !! button = Some cbs ∧
     register_handler button callback s = (s', Return tt) ∧
     handlers (self s') !! button = Some (cbs ++ [callback]) ∧
     ∀ other, other ≠ button →
              handlers (self s') !! other = handlers (self s) !! other).
Proof.
  intros Hdom. split; [apply register_handler_invalid|].
  intros Hin.
  assert (is_Some (handlers (self s) !! button)) as [cbs Hb].
  { apply elem_of_dom. rewrite Hdom. by apply elem_of_list_to_set. }
  exists cbs. eexists. split; [done|].
  split; [by apply register_handler_valid|]. simpl. split.
  - apply lookup_insert_eq.
  - intros other Hne. by apply lookup_insert_ne.
Qed.

(** ** What the methods other than [start] can do to the manager *)

#[global] Instance wear_preorder : PreOrder wear.
Proof.
  split; [by intros s|].
  intros s1 s2 s3 (E1 & T1 & O1 & D1 & R1 & Q1) (E2 & T2 & O2 & D2 & R2 & Q2).
  split_and!; try congruence; auto.
Qed.

Lemma wear_emit e : keeps wear (emit e).
Proof. by intros s. Qed.

Lemma wear_handlers : tolerates_handlers wear.
Proof.
  intros s button cbs cbs' Hb. split_and!; try done. simpl.
  apply dom_insert_lookup_L. by eexists.
Qed.

Lemma wear_clear_running : keeps wear (modify (set_running false)).
Proof. intros s. by split_and!. Qed.

Lemma wear_drop_request : keeps wear (modify (set_request None)).
Proof. intros s. by split_and!. Qed.

Lemma wear_perform1 a : keeps wear (perform1 a).
Proof.
  apply keeps_perform1; try apply _.
  - intros r. apply wear_emit.
  - intros c. apply wear_emit.
  - apply wear_handlers.
  - apply wear_clear_running.
  - apply wear_drop_request.
Qed.

Lemma wear_perform acts : keeps wear (perform acts).
Proof.
  apply (keeps_perform wear (λ _, True)); [|by apply Forall_true].
  intros a _. apply wear_perform1.
Qed.

Lemma wear__cleanup_gpio : keeps wear _cleanup_gpio.
Proof. apply (wear_perform1 call_cleanup_gpio). Qed.

Lemma wear_register_handler button callback :
  keeps wear (register_handler button callback).
Proof.
  apply keeps_register_handler; try apply _.
  - intros r. apply wear_emit.
  - apply wear_handlers.
Qed.

Lemma wear_unregister_handler button callback :
  keeps wear (unregister_handler button callback).
Proof. apply (wear_perform1 (call_unregister_handler button callback)). Qed.

Lemma wear_stop : keeps wear stop.
Proof.
  unfold stop.
  apply keeps_bind; [apply _|apply wear_clear_running|intros _].
  apply keeps_bind; [apply _|apply keeps_gets; apply _|intros th].
  apply keeps_bind; [apply _| |intros _; apply wear__cleanup_gpio].
  destruct th; [|apply keeps_ret; apply _].
  apply keeps_bind; [apply _|apply wear_emit|intros _; apply wear_emit].
Qed.

Section Wear.
Context (body : Callback → string → list Event → Behaviour).

Lemma all_allowed : all_tame (λ _, True) body.
Proof. intros h label past. by apply Forall_true. Qed.

Lemma reads_all_allowed reads : Forall (read_allowed (λ _, True)) reads.
Proof.
  apply Forall_true. intros rd. repeat split; try by apply Forall_true.
  - destruct (read_edge_events_timeout rd); simpl; [|done].
    apply Forall_true. intros ?. by apply Forall_true.
  - destruct (read_edge_events rd); simpl; [|done].
    apply Forall_true. intros ?. by apply Forall_true.
Qed.

Lemma wear__handle_button_event event :
  keeps wear (_handle_button_event body event).
Proof.
  apply (keeps__handle_button_event wear) with (allowed := λ _, True);
    try apply _; try (intros; apply wear_emit).
  - intros a _. apply wear_perform1.
  - apply all_allowed.
Qed.

Lemma wear_while_running reads : keeps wear (while_running body reads).
Proof.
  apply (keeps_while_running wear) with (allowed := λ _, True);
    try apply _; try (intros; apply wear_emit).
  - intros a _. apply wear_perform1.
  - apply all_allowed.
  - apply reads_all_allowed.
Qed.

Lemma wear__run reads : keeps wear (_run body reads).
Proof.
  unfold _run.
  apply keeps_try_finally; [apply _| |apply wear__cleanup_gpio].
  apply keeps_try_except; [apply _|apply wear_while_running|intros e].
  apply keeps_bind; [apply _|apply wear_emit|intros _; apply wear_clear_running].
Qed.

End Wear.

Lemma wear_well_formed G s s' :
  wear s s' → well_formed G (self s) → well_formed G (self s').
Proof.
  intros (E & T & O & D & R & Q) (W1 & W2 & W3 & W4 & W5 & W6).
  split_and!.
  - by rewrite D.
  - rewrite E. done.
  - intros Hr. rewrite T. auto.
  - intros Hr. rewrite O. auto.
  - intros [r Hr]. rewrite O. apply W5. rewrite (Q r Hr). by eexists.
  - rewrite O. done.
Qed.
(** ** What [start] can do to the manager *)

Lemma bind_cases {A B} (m : M A) (f : A → M B) s :
  (m ≫= f) s
  = match m s with
    | (s', Return a) => f a s'
    | (s', Raise e) => (s', Raise e)
    | (s', Pending) => (s', Pending)
    end.
Proof. done. Qed.

Lemma comprehension_cases {A B} (f : A → M B) (P : A → B → Prop) l s :
  (∀ x s, self (f x s).1 = self s ∧
          match (f x s).2 with
          | Return y => P x y
          | Raise _ => True
          | Pending => False
          end) →
  self (comprehension f l s).1 = self s ∧
  match (comprehension f l s).2 with
  | Return ys => Forall2 P l ys
  | Raise _ => True
  | Pending => False
  end.
Proof.
  intros Hf. revert s. induction l as [|x l IH]; intros s; simpl; [done|].
  unfold mbind, M_bind. specialize (Hf x s).
  destruct (f x s) as [s1 [y|e|]]; simpl in *; destruct Hf as [Hs Hy]; [|done..].
  specialize (IH s1).
  destruct (comprehension f l s1) as [s2 [ys|e|]]; simpl in *;
    destruct IH as [IH1 IH2]; [|by rewrite IH1|done].
  split; [by rewrite IH1|]. by constructor.
Qed.

Lemma comprehension_offsets_cases chip l s :
  let r := comprehension
             (λ btn, driver (chip_line_offset_from_id btn)
                            (line_offset_from_id chip btn)) l s in
  self r.1 = self s ∧
  match r.2 with
  | Return offs =>
      Forall2 (λ btn o, line_offset_from_id chip btn = Returns o) l offs
  | Raise _ => True
  | Pending => False
  end.
Proof.
  apply comprehension_cases. intros btn s'. mrun.
  by destruct (line_offset_from_id chip btn).
Qed.

Section StartCases.
Context (GPIOD_AVAILABLE : bool).

Lemma _initialize_gpio_cases hw s :
  let r := _initialize_gpio GPIOD_AVAILABLE hw s in
  enabled (self r.1) = enabled (self s) ∧
  thread (self r.1) = thread (self s) ∧
  running (self r.1) = running (self s) ∧
  handlers (self r.1) = handlers (self s) ∧
  match r.2 with
  | Return _ =>
      GPIOD_AVAILABLE = true ∧
      ∃ chip offs req,
        hw = Returns chip ∧ acquires chip offs req ∧
        offsets (self r.1) = Some offs ∧ request (self r.1) = Some req
  | Raise _ =>
      request (self r.1) = request (self s) ∧
      (offsets (self r.1) = offsets (self s) ∨
       ∃ offs, offsets (self r.1) = Some offs ∧ length offs = length BUTTONS)
  | Pending => False
  end.
Proof.
  cbv zeta. unfold _initialize_gpio.
  destruct GPIOD_AVAILABLE; cbn [negb];
    [|simpl; split_and!; try done; by left].
  destruct hw as [chip|e];
    [|simpl; split_and!; try done; by left].
  pose (s1 := {| self := self s;
                 trace := trace s ++ [Driver find_chip_by_platform] |}).
  rewrite bind_cases.
  change (driver find_chip_by_platform (Returns chip) s) with (s1, Return chip).
  cbv iota beta. rewrite bind_cases.
  pose proof (comprehension_offsets_cases chip BUTTONS s1) as Hc.
  cbv zeta in Hc.
  destruct (comprehension _ BUTTONS s1) as [s2 [offs|e|]];
    simpl in Hc; destruct Hc as [Hs Hf]; [| |done].
  - mrun. destruct (request_lines chip (fromkeys offs)) as [req|e] eqn:Eq; simpl;
      rewrite Hs; (split_and!; try done).
    + by exists chip, offs, req.
    + right. exists offs. split; [done|].
      symmetry. apply (Forall2_length _ _ _ Hf).
  - simpl. rewrite Hs. split_and!; try done. by left.
Qed.

(** The two ways a call of [start] ends. *)
Lemma start_cases hw s :
  ∃ s' b,
    start GPIOD_AVAILABLE hw s = (s', Return b) ∧
    handlers (self s') = handlers (self s) ∧
    if b then
      enabled (self s) = true ∧ running (self s) = false ∧
      GPIOD_AVAILABLE = true ∧
      ∃ chip offs req,
        hw = Returns chip ∧ acquires chip offs req ∧
        self s' = set_thread (Some DaemonThread)
                    (set_running true
                       (set_request (Some req)
                          (set_offsets (Some offs) (self s))))
    else
      running (self s') = running (self s) ∧
      thread (self s') = thread (self s) ∧
      request (self s') = request (self s) ∧
      (enabled (self s') = true → enabled (self s) = true) ∧
      (offsets (self s') = offsets (self s) ∨
       ∃ offs, offsets (self s') = Some offs ∧ length offs = length BUTTONS).
Proof.
  destruct (enabled (self s)) eqn:He.
  2:{ eexists _, false. split; [by apply start_disabled|].
      simpl. split_and!; try done; try congruence. by left. }
  destruct (running (self s)) eqn:Hr.
  { eexists _, false. split; [by apply start_already_running|].
    simpl. split_and!; try done; try congruence. by left. }
  pose proof (_initialize_gpio_cases hw s) as (E & T & R & H & Hc).
  destruct ((_initialize_gpio GPIOD_AVAILABLE hw s).2) as [[]|e|] eqn:Hi;
    [| |done].
  - destruct Hc as (HG & chip & offs & req & -> & Hacq & Ho & Hq).
    eexists _, true. split; [by apply start_success|].
    simpl. split; [done|]. split_and!; try done.
    exists chip, offs, req. split_and!; try done.
    subst GPIOD_AVAILABLE.
    by rewrite (_initialize_gpio_acquires chip offs req s Hacq).
  - destruct Hc as (Hq & Ho).
    eexists _, false. split; [by apply start_failure|].
    simpl. split_and!; try done. congruence.
Qed.

Lemma start_well_formed hw s :
  well_formed GPIOD_AVAILABLE (self s) →
  well_formed GPIOD_AVAILABLE (self (start GPIOD_AVAILABLE hw s).1).
Proof.
  intros (W1 & W2 & W3 & W4 & W5 & W6).
  destruct (start_cases hw s) as (s' & b & Hs & H & Hb). rewrite Hs. simpl.
  destruct b.
  - destruct Hb as (He & Hr & HG & chip & offs & req & _ & [Hf _] & Hs').
    rewrite Hs'. split_and!; simpl; try done.
    intros ? [= <-]. symmetry. apply (Forall2_length _ _ _ Hf).
  - destruct Hb as (Hr & Ht & Hq & He & Ho).
    split_and!.
    + by rewrite H.
    + auto.
    + rewrite Hr, Ht. done.
    + rewrite Hr. intros Hrun. destruct Ho as [->|(offs & -> & _)]; [auto|by eexists].
    + rewrite Hq. intros Hreq. destruct Ho as [->|(offs & -> & _)]; [auto|by eexists].
    + intros offs. destruct Ho as [->|(offs' & -> & Hl)]; [auto|by intros [= <-]].
Qed.

End StartCases.

Lemma fresh_well_formed G enable : well_formed G (self (fresh G enable)).
Proof.
  split_and!.
  - by vm_compute.
  - simpl. by intros [_ ->]%andb_prop.
  - done.
  - done.
  - by intros [? ?].
  - done.
Qed.

Lemma exec_well_formed G body op s :
  well_formed G (self s) → well_formed G (self (exec G body op s)).
Proof.
  destruct op; simpl.
  - apply wear_well_formed, wear_register_handler.
  - apply wear_well_formed, wear_unregister_handler.
  - apply start_well_formed.
  - apply wear_well_formed, wear_stop.
  - apply wear_well_formed, wear__handle_button_event.
  - apply wear_well_formed, wear__run.
Qed.

Lemma exec_all_well_formed G body ops s :
  well_formed G (self s) → well_formed G (self (exec_all G body ops s)).
Proof.
  revert s. induction ops as [|op ops IH]; intros s Hw; simpl; [done|].
  by apply IH, exec_well_formed.
Qed.

Lemma reachable_well_formed G body s :
  reachable G body s → well_formed G (self s).
Proof.
  intros (enable & ops & ->). apply exec_all_well_formed, fresh_well_formed.
Qed.
(** ** Lifecycle *)

(** ** The poll thread's ends *)

Lemma driver_calls_app t1 t2 :
  driver_calls (t1 ++ t2) = driver_calls t1 ++ driver_calls t2.
Proof. apply omap_app. Qed.

Lemma perform_cons a acts s :
  perform (a :: acts) s = perform acts (perform1 a s).1.
Proof.
  simpl. by erewrite bind_Return; [|apply returns_unit_eq, returns_perform1].
Qed.

Lemma perform_clears acts s :
  clear_running ∈ acts → running (self (perform acts s).1) = false.
Proof.
  revert s. induction acts as [|a acts IH]; intros s Hin;
    [by apply elem_of_nil in Hin|].
  rewrite perform_cons.
  apply elem_of_cons in Hin as [<-|Hin]; [|by apply IH].
  destruct (wear_perform acts (perform1 clear_running s).1)
    as (_ & _ & _ & _ & Hr & _).
  destruct (running (self (perform acts _).1)); [|done].
  by specialize (Hr eq_refl).
Qed.

Lemma _cleanup_gpio_trace s :
  ∃ t, trace (_cleanup_gpio s).1 = trace s ++ t ∧ calls t = [].
Proof.
  unfold _cleanup_gpio. mrun.
  destruct s as [[en th ru hs [[cfg [[]|e]]|] offs] tr]; simpl.
  - by exists [Driver request_release].
  - exists [Driver request_release; Logged (error_releasing e)].
    by rewrite <-app_assoc.
  - exists []. by rewrite app_nil_r.
Qed.

Section Fallback.
Context (body : Callback → string → list Event → Behaviour).

(** A turn of the loop that ends in [continue]. *)
Lemma while_running_continue rd reads s s1 r s2 :
  (perform (preceding rd) s).1 = s1 →
  running (self s1) = true →
  request (self s1) = Some r →
  read_events rd s1 = (s2, Return None) →
  while_running body (rd :: reads) s = while_running body reads s2.
Proof.
  intros Hp Hr Hq Hrd. simpl.
  erewrite bind_Return; [|apply returns_unit_eq, returns_perform].
  rewrite Hp. mrun. rewrite Hr. simpl. by rewrite Hq, Hrd.
Qed.

End Fallback.

(** ** A manager that cannot use the hardware *)

#[global] Instance idle_frame_preorder : PreOrder idle_frame.
Proof.
  split; [by intros s|].
  intros s1 s2 s3 H1 H2 He Hq Ho.
  destruct (H1 He Hq Ho) as (E1 & Q1 & O1 & T1 & D1 & C1).
  destruct (H2 E1 Q1 O1) as (E2 & Q2 & O2 & T2 & D2 & C2).
  split_and!; congruence.
Qed.

Lemma idle_frame_logger r : keeps idle_frame (logger r).
Proof.
  intros s He Hq Ho. simpl. split_and!; try done.
  - rewrite driver_calls_app. simpl. by rewrite app_nil_r.
  - rewrite calls_app. simpl. by rewrite app_nil_r.
Qed.

Lemma idle_frame_handlers : tolerates_handlers idle_frame.
Proof. by intros s button cbs cbs' _ He Hq Ho. Qed.

Lemma idle_frame__cleanup_gpio : keeps idle_frame _cleanup_gpio.
Proof.
  intros s He Hq Ho. unfold _cleanup_gpio. mrun. by rewrite Hq.
Qed.

Lemma idle_frame_perform1 a : keeps idle_frame (perform1 a).
Proof.
  destruct a.
  - apply keeps_registry_action; try apply _; try done;
      first [apply idle_frame_logger|apply idle_frame_handlers].
  - apply keeps_registry_action; try apply _; try done;
      first [apply idle_frame_logger|apply idle_frame_handlers].
  - by intros s He Hq Ho.
  - apply idle_frame__cleanup_gpio.
Qed.

Lemma idle_frame_register_handler button callback :
  keeps idle_frame (register_handler button callback).
Proof.
  apply keeps_register_handler; try apply _;
    first [apply idle_frame_logger|apply idle_frame_handlers].
Qed.

Lemma idle_frame_perform acts : keeps idle_frame (perform acts).
Proof.
  apply (keeps_perform idle_frame (λ _, True)); [|by apply Forall_true].
  intros a _. apply idle_frame_perform1.
Qed.

Lemma idle_frame_stop : keeps idle_frame stop.
Proof.
  intros s He Hq Ho. unfold stop, _cleanup_gpio. mrun.
  destruct s as [[en [t|] ru hs rq offs] tr]; simpl in *; subst;
    simpl; split_and!; try done;
    rewrite ?driver_calls_app, ?calls_app; simpl; by rewrite ?app_nil_r.
Qed.

Section Idle.
Context (GPIOD_AVAILABLE : bool).
Context (body : Callback → string → list Event → Behaviour).

Lemma idle_frame_start hw : keeps idle_frame (start GPIOD_AVAILABLE hw).
Proof.
  intros s He Hq Ho. rewrite start_disabled by done.
  by apply (idle_frame_logger warning_disabled s).
Qed.

Lemma idle_frame__handle_button_event event :
  keeps idle_frame (_handle_button_event body event).
Proof.
  intros s He Hq Ho. by rewrite _handle_button_event_no_table.
Qed.

(** Without a session the loop is left at once. *)
Lemma while_running_no_session reads s :
  request (self s) = None →
  ∃ s', while_running body reads s = (s', Return tt) ∧
        request (self s') = None ∧
        s' = match reads with
             | [] => s
             | rd :: _ => (perform (preceding rd) s).1
             end.
Proof.
  intros Hq. destruct reads as [|rd reads].
  - exists s. split_and!; [|done..]. simpl. mrun.
    destruct (running (self s)); simpl; [|done]. by rewrite Hq.
  - destruct (wear_perform (preceding rd) s) as (_ & _ & _ & _ & _ & Hreq).
    assert (request (self (perform (preceding rd) s).1) = None) as Hq1.
    { destruct (request (self (perform (preceding rd) s).1)) as [r|] eqn:E;
        [|done]. specialize (Hreq r eq_refl). congruence. }
    eexists. split; [|done]. simpl.
    erewrite bind_Return; [|apply returns_unit_eq, returns_perform].
    mrun. destruct (running _); simpl; [|done]. by rewrite Hq1.
Qed.

Lemma idle_frame__run reads : keeps idle_frame (_run body reads).
Proof.
  intros s He Hq Ho.
  destruct (while_running_no_session reads s Hq) as (s' & Hw & Hq' & Hs').
  rewrite (_run_Return body reads s s' Hw).
  assert (idle_frame s s') as Hi.
  { rewrite Hs'. destruct reads; [done|apply idle_frame_perform]. }
  unfold _cleanup_gpio. mrun. rewrite Hq'. simpl. by apply Hi.
Qed.

Lemma idle_frame_exec op s : idle_frame s (exec GPIOD_AVAILABLE body op s).
Proof.
  destruct op; simpl.
  - apply idle_frame_register_handler.
  - apply (idle_frame_perform1 (call_unregister_handler button callback)).
  - apply idle_frame_start.
  - apply idle_frame_stop.
  - apply idle_frame__handle_button_event.
  - apply idle_frame__run.
Qed.

Lemma idle_frame_exec_all ops s :
  idle_frame s (exec_all GPIOD_AVAILABLE body ops s).
Proof.
  revert s. induction ops as [|op ops IH]; intros s; simpl; [reflexivity|].
  etransitivity; [apply idle_frame_exec|apply IH].
Qed.

End Idle.

(** ** Dispatch as a function of the registry *)

Section Expected.
Context (body : Callback → string → list Event → Behaviour).

Lemma pass_calls_expected event s :
  calls (trace (_handle_button_event body event s).1)
  = calls (trace s) ++ expected_calls (self s) event.
Proof.
  unfold expected_calls, resolve.
  destruct (offsets (self s)) as [offs|] eqn:Ho.
  2:{ rewrite _handle_button_event_no_table by done. by rewrite app_nil_r. }
  destruct (index offs (line_offset event)) as [i|] eqn:Hi; simpl.
  2:{ rewrite (_handle_button_event_unknown body s event offs)
        by (try done; by apply index_None).
      simpl. rewrite calls_app. simpl. by rewrite app_nil_r. }
  destruct (BUTTONS !! i) as [gpio|] eqn:Hb; simpl.
  2:{ unfold _handle_button_event. mrun. rewrite Ho, Hi. simpl. rewrite Hb.
      simpl. rewrite calls_app. simpl. by rewrite app_nil_r. }
  destruct (LABELS !! i) as [label|] eqn:Hl; simpl.
  2:{ unfold _handle_button_event. mrun. rewrite Ho, Hi. simpl. rewrite Hb.
      simpl. rewrite Hl. simpl. rewrite calls_app. simpl. by rewrite app_nil_r. }
  destruct (handlers (self s) !! label) as [cbs|] eqn:Hh; simpl.
  - rewrite (_handle_button_event_known body s event offs i gpio label cbs)
      by done.
    rewrite for_handlers_calls. simpl. rewrite calls_app. simpl.
    by rewrite app_nil_r.
  - unfold _handle_button_event. mrun. rewrite Ho, Hi. simpl. rewrite Hb.
    simpl. rewrite Hl. simpl. rewrite Hh. simpl.
    rewrite !calls_app. simpl. by rewrite !app_nil_r.
Qed.

Lemma pass_keeps_quiet_manager event s :
  registered_are_quiet body (self s) →
  self (_handle_button_event body event s).1 = self s.
Proof.
  intros Hq.
  apply (_handle_button_event_within same_self) with (allowed := λ _, False);
    try apply _; try done.
  intros label cbs Hh h past Hin. by rewrite (Hq label cbs h past).
Qed.

Lemma batch_calls_expected events s :
  running (self s) = true →
  registered_are_quiet body (self s) →
  ∃ s',
    for_events body ((λ e, ([], e)) <$> events) s = (s', Return Exhausted) ∧
    self s' = self s ∧
    calls (trace s')
    = calls (trace s) ++ concat (expected_calls (self s) <$> events).
Proof.
  revert s. induction events as [|e events IH]; intros s Hr Hq.
  - exists s. simpl. by rewrite app_nil_r.
  - rewrite fmap_cons, for_events_cons by done. simpl perform. cbn [fst mret M_ret].
    pose proof (pass_keeps_quiet_manager e s Hq) as Hs.
    destruct (IH (_handle_button_event body e s).1) as (s' & E & S & C);
      [by rewrite Hs..|].
    exists s'. split; [done|]. split; [congruence|].
    rewrite C, pass_calls_expected, Hs, <-app_assoc. done.
Qed.

Lemma loop_calls_expected reads batches s r :
  Forall2 returns_events reads batches →
  running (self s) = true →
  request (self s) = Some r →
  registered_are_quiet body (self s) →
  ∃ s',
    while_running body reads s = (s', Pending) ∧
    self s' = self s ∧
    calls (trace s')
    = calls (trace s) ++ concat (expected_calls (self s) <$> concat batches).
Proof.
  intros HF. revert s. induction HF as [|rd events reads batches [Hp He] _ IH];
    intros s Hr Hreq Hq.
  - exists s. split; [by apply (while_running_nil body s r)|].
    simpl. by rewrite app_nil_r.
  - set (s2 := {| self := self s;
                  trace := trace s ++ [Driver (request_read_edge_events true)] |}).
    destruct (batch_calls_expected events s2) as (s3 & E3 & S3 & C3); [done..|].
    destruct (IH s3) as (s' & E & S & C); [by rewrite S3..|].
    exists s'. split_and!.
    + rewrite (while_running_cons body rd reads s s r
                 ((λ e, ([], e)) <$> events) s2);
        [by rewrite E3|by rewrite Hp|done|done|by apply read_events_timeout].
    + by rewrite S, S3.
    + rewrite C, C3, S3. subst s2. simpl. rewrite calls_app. simpl.
      rewrite app_nil_r, <-app_assoc. by rewrite fmap_app, concat_app.
Qed.

End Expected.

(** ** Resolution of offsets *)

Lemma index_lookup_first l x i :
  l !! i = Some x → (∀ j, j < i → l !! j ≠ Some x) → index l x = Some i.
Proof.
  revert i. induction l as [|y l IH]; intros i Hi Hfirst; [done|]. simpl.
  destruct i as [|i]; simpl in Hi.
  - injection Hi as ->. by rewrite decide_True.
  - rewrite decide_False.
    + rewrite (IH i); [done|done|]. intros j Hj. apply (Hfirst (S j)). lia.
    + intros ->. by apply (Hfirst 0); [lia|].
Qed.

Lemma index_earliest l x i :
  index l x = Some i → ∀ j, j < i → l !! j ≠ Some x.
Proof.
  revert i. induction l as [|y l IH]; intros i; simpl; [done|].
  case_decide; [intros [= <-]; lia|].
  destruct (index l x) as [k|]; simpl; [|done]. intros [= <-] [|j] Hj; simpl.
  - congruence.
  - apply (IH k); [done|lia].
Qed.

Lemma LABELS_NoDup : NoDup LABELS.
Proof. apply NoDup_ListNoDup. repeat constructor; simpl; intuition discriminate. Qed.

(** ** How the poll loop and [stop] end *)

Section LoopExit.
Context (body : Callback → string → list Event → Behaviour).


End LoopExit.


(** ** The registry *)

Lemma remove_app_last x l :
  remove x (l ++ [x]) = if decide (x ∈ l) then remove x l ++ [x] else l.
Proof.
  induction l as [|y l IH]; simpl.
  - rewrite decide_True by done. by destruct (decide (x ∈ [])) as [H%elem_of_nil|].
  - destruct (decide (y = x)) as [->|Hne].
    + by rewrite decide_True by apply list_elem_of_here.
    + rewrite IH. destruct (decide (x ∈ l)) as [Hin|Hn].
      * by rewrite decide_True by (by apply list_elem_of_further).
      * rewrite decide_False; [done|].
        intros [?|?]%elem_of_cons; congruence.
Qed.

Lemma remove_Permutation x l : x ∈ l → remove x l ++ [x] ≡ₚ l.
Proof.
  intros Hin. destruct (remove_first x l Hin) as (l1 & l2 & -> & _ & ->).
  rewrite <-app_assoc. apply Permutation_app_head.
  symmetry. apply Permutation_cons_append.
Qed.

Lemma set_handlers_same m : set_handlers (handlers m) m = m.
Proof. by destruct m. Qed.

(** [setup_button_handlers] on a manager whose registry has the labels
    as keys. *)
Lemma setup_button_handlers_on_labels cb s :
  dom (handlers (self s)) = list_to_set LABELS →
  ∃ s',
    setup_button_handlers cb s = (s', Return [info_handlers_registered]) ∧
    (∀ label, label ∈ LABELS →
       ∃ cbs, handlers (self s) !! label = Some cbs ∧
              handlers (self s') !! label = Some (cbs ++ [cb])) ∧
    dom (handlers (self s')) = dom (handlers (self s)) ∧
    set_handlers (handlers (self s)) (self s') = self s ∧
    trace s' = trace s ++ (Logged ∘ info_registered <$> LABELS).
Proof.
  intros Hdom.
  assert (∀ label, label ∈ LABELS → is_Some (handlers (self s) !! label)) as Hk.
  { intros label Hl. apply elem_of_dom. rewrite Hdom.
    by apply elem_of_list_to_set. }
  destruct (Hk "A") as [a Ha]; [apply list_elem_of_In; simpl; tauto|].
  destruct (Hk "B") as [b Hb]; [apply list_elem_of_In; simpl; tauto|].
  destruct (Hk "C") as [c Hc]; [apply list_elem_of_In; simpl; tauto|].
  destruct (Hk "D") as [d Hd]; [apply list_elem_of_In; simpl; tauto|].
  unfold setup_button_handlers.
  erewrite bind_Return;
    [|apply (register_handler_valid "A" cb s a);
      [apply list_elem_of_In; simpl; tauto|done]].
  erewrite bind_Return;
    [|apply (register_handler_valid "B" cb _ b);
      [apply list_elem_of_In; simpl; tauto|simpl; by rewrite lookup_insert_ne]].
  erewrite bind_Return;
    [|apply (register_handler_valid "C" cb _ c);
      [apply list_elem_of_In; simpl; tauto
      |simpl; by rewrite !lookup_insert_ne by done]].
  erewrite bind_Return;
    [|apply (register_handler_valid "D" cb _ d);
      [apply list_elem_of_In; simpl; tauto
      |simpl; by rewrite !lookup_insert_ne by done]].
  eexists. split; [done|]. simpl. split_and!.
  - intros label Hl. apply list_elem_of_In in Hl.
    destruct Hl as [<-|[<-|[<-|[<-|[]]]]].
    + exists a. split; [done|].
      by rewrite !lookup_insert_ne, lookup_insert_eq by done.
    + exists b. split; [done|].
      by rewrite !lookup_insert_ne, lookup_insert_eq by done.
    + exists c. split; [done|].
      by rewrite lookup_insert_ne, lookup_insert_eq by done.
    + exists d. split; [done|]. by rewrite lookup_insert_eq.
  - rewrite dom_insert_lookup_L
      by (rewrite !lookup_insert_ne by done; by eexists).
    rewrite dom_insert_lookup_L
      by (rewrite !lookup_insert_ne by done; by eexists).
    rewrite dom_insert_lookup_L
      by (rewrite !lookup_insert_ne by done; by eexists).
    rewrite dom_insert_lookup_L by (by eexists). done.
  - by destruct (self s).
  - by rewrite <-!app_assoc.
Qed.

(** * The claims *)

(** C1: an edge event whose line offset is the i-th entry of the line
    offset table is resolved to the i-th label, and the pass invokes
    the callbacks of that label's sequence, each as often as it occurs
    there and in the order of the sequence.  The entries of the table
    are the offsets of distinct lines.  In particular, with [f] and [g]
    registered for "A" on a fresh manager, two events for "A" read by
    the poll thread invoke [f], [g], [f], [g]. *)
Theorem dispatch_invokes_registered_handlers
    (body : Callback → string → list Event → Behaviour) :
  (∀ s event offs i label cbs,
     offsets (self s) = Some offs →
     NoDup offs →
     offs !! i = Some (line_offset event) →
     LABELS !! i = Some label →
     handlers (self s) !! label = Some cbs →
     ∃ s', _handle_button_event body event s = (s', Return tt) ∧
           calls (trace s') = calls (trace s) ++ ((λ h, (h, label)) <$> cbs)) ∧
  (∀ f g chip offs req event1 event2 rd,
     (∀ past, effects (body f "A" past) = []) →
     (∀ past, effects (body g "A" past) = []) →
     acquires chip offs req →
     head offs = Some (line_offset event1) →
     head offs = Some (line_offset event2) →
     preceding rd = [] →
     read_edge_events_timeout rd = Returns [([], event1); ([], event2)] →
     let program :=
       register_handler "A" f ;; register_handler "A" g ;;
       start true (Returns chip) ;; _run body [rd] in
     calls (trace (program (fresh true true)).1)
     = [(f, "A"); (g, "A"); (f, "A"); (g, "A")]).
Proof.
  split.
  - intros s event offs i label cbs. apply pass_calls.
  - intros f g chip offs req event1 event2 rd Hf Hg Hacq H1 H2 Hpre Hrd program.
    destruct offs as [|o offs]; [done|]. injection H1 as H1. injection H2 as H2.
    subst program.
    erewrite bind_Return; [|by apply register_handler_valid;
                             [apply list_elem_of_here|reflexivity]].
    erewrite bind_Return; [|by apply register_handler_valid;
                             [apply list_elem_of_here|apply lookup_insert_eq]].
    erewrite bind_Return;
      [|rewrite start_success; [reflexivity|reflexivity|reflexivity|];
        by rewrite (_initialize_gpio_acquires chip (o :: offs) req)].
    rewrite (_initialize_gpio_acquires chip (o :: offs) req) by done.
    cbv zeta. cbn [self trace fst].
    set (s3 := {| self := _; trace := _ |}).
    assert (calls (trace s3) = []) as Hc3 by (by subst s3).
    assert (handlers (self s3) !! "A" = Some [f; g]) as Hh3.
    { subst s3. simpl. by rewrite insert_insert_eq, lookup_insert_eq. }
    assert (∀ h past, h ∈ [f; g] → effects (body h "A" past) = []) as Hq.
    { intros h past [->|[->|[]%elem_of_nil]%elem_of_cons]%elem_of_cons; done. }
    pose (s4 := {| self := self s3;
                   trace := trace s3 ++ [Driver (request_read_edge_events true)] |}).
    destruct (pass_for_A body s4 event1 o offs [f; g]) as (s5 & E5 & S5 & C5);
      [done..|].
    destruct (pass_for_A body s5 event2 o offs [f; g]) as (s6 & E6 & S6 & C6);
      [by rewrite ?S5..|done|].
    assert (for_events body [([], event1); ([], event2)] s4
            = (s6, Return Exhausted)) as Hfe.
    { rewrite for_events_cons by done. simpl perform. cbn [fst mret M_ret].
      rewrite E5. cbn [fst].
      rewrite for_events_cons by (simpl; by rewrite S5). simpl perform.
      cbn [fst mret M_ret]. by rewrite E6. }
    erewrite _run_Pending.
    2:{ rewrite (while_running_cons body rd [] s3 s3 req
                   [([], event1); ([], event2)] s4);
          [|by rewrite Hpre|done|done|by apply read_events_timeout].
        rewrite Hfe. cbn [fst].
        apply (while_running_nil body s6 req); by rewrite S6, S5. }
    cbn [fst]. rewrite C6, C5. unfold s4. cbn [trace].
    rewrite calls_app, Hc3. done.
Qed.

Lemma dispatch_invokes_registered_handlers_witness :
  (∃ s', _handle_button_event plain_body (press 6) busy = (s', Return tt) ∧
         calls (trace s') = calls (trace busy) ++ [(1, "B"); (2, "B"); (1, "B")]) ∧
  calls (trace ((register_handler "A" 7 ;; register_handler "A" 8 ;;
                 start true (Returns plain_chip) ;;
                 _run plain_body [reads_events [press 5; press 5]])
                  (fresh true true)).1)
  = [(7, "A"); (8, "A"); (7, "A"); (8, "A")].
Proof.
  split.
  - apply (proj1 (dispatch_invokes_registered_handlers plain_body)
             busy (press 6) BUTTONS 1 "B" [1; 2; 1]);
      [reflexivity| |reflexivity|reflexivity|reflexivity].
    apply NoDup_ListNoDup. repeat constructor; simpl; intuition discriminate.
  - apply (proj2 (dispatch_invokes_registered_handlers plain_body)
             7 8 plain_chip BUTTONS plain_request (press 5) (press 5)
             (reads_events [press 5; press 5]));
      try reflexivity.
    split; [repeat constructor|reflexivity].
Defined.

(** C2: on a manager in any state it can have reached since it was
    constructed, [register_handler] with an identity outside LABELS
    fails with [ValueError] (the rejected call, "InvalidIdentity") and
    leaves the manager, hence every sequence of the registry, as it
    was; with an identity of LABELS it returns, the callback is appended
    to the sequence of that identity, and the sequence of every other
    identity is what it was. *)
Theorem register_handler_checks_identity
    (GPIOD_AVAILABLE : bool)
    (body : Callback → string → list Event → Behaviour)
    enable ops button callback :
  let s := exec_all GPIOD_AVAILABLE body ops (fresh GPIOD_AVAILABLE enable) in
  (button ∉ LABELS →
   register_handler button callback s = (s, Raise ValueError)) ∧
  (button ∈ LABELS →
   ∃ cbs s',
     handlers (self s) !! button = Some cbs ∧
     register_handler button callback s = (s', Return tt) ∧
     handlers (self s') !! button = Some (cbs ++ [callback]) ∧
     ∀ other, other ≠ button →
              handlers (self s') !! other = handlers (self s) !! other).
Proof.
  intros s. apply register_handler_on_labels. subst s.
  destruct (lifetime_frame_exec_all GPIOD_AVAILABLE body ops
              (fresh GPIOD_AVAILABLE enable)) as [-> _].
  by vm_compute.
Qed.

Lemma register_handler_checks_identity_witness :
  let s := exec_all true plain_body
             [op_register_handler "B" 1; op_start (Returns plain_chip)]
             (fresh true true) in
  register_handler "E" 7 s = (s, Raise ValueError) ∧
  ∃ cbs s',
    handlers (self s) !! "B" = Some cbs ∧
    register_handler "B" 7 s = (s', Return tt) ∧
    handlers (self s') !! "B" = Some (cbs ++ [7]) ∧
    ∀ other, other ≠ "B" →
             handlers (self s') !! other = handlers (self s) !! other.
Proof.
  intros s. split.
  - apply (proj1 (register_handler_checks_identity true plain_body true
                    [op_register_handler "B" 1; op_start (Returns plain_chip)]
                    "E" 7)).
    vm_compute. intros H. by apply list_elem_of_In in H as [|[|[|[|[]]]]].
  - apply (proj2 (register_handler_checks_identity true plain_body true
                    [op_register_handler "B" 1; op_start (Returns plain_chip)]
                    "B" 7)).
    apply list_elem_of_In. simpl. tauto.
Defined.

(** C3: when the acquisition of the lines fails during [start()], the
    call returns false and leaves the manager disabled; whatever happens
    to the manager afterwards, the status route reports it disabled and
    every later [start()] returns false having done nothing but log a
    warning: the driver is not called again. *)
Theorem failed_start_disables_for_good
    (GPIOD_AVAILABLE : bool)
    (body : Callback → string → list Event → Behaviour) hw s e :
  enabled (self s) = true →
  running (self s) = false →
  (_initialize_gpio GPIOD_AVAILABLE hw s).2 = Raise e →
  ∃ s',
    start GPIOD_AVAILABLE hw s = (s', Return false) ∧
    response_enabled (button_status (Some (self s'))) = false ∧
    ∀ ops hw',
      let later := exec_all GPIOD_AVAILABLE body ops s' in
      response_enabled (button_status (Some (self later))) = false ∧
      start GPIOD_AVAILABLE hw' later
      = ({| self := self later;
            trace := trace later ++ [Logged warning_disabled] |},
         Return false).
Proof.
  intros He Hr Hi. eexists. split; [by apply start_failure|].
  split; [done|]. intros ops hw' later.
  assert (enabled (self later) = false) as Hl.
  { subst later. set (s' := {| self := _; trace := _ |}).
    destruct (lifetime_frame_exec_all GPIOD_AVAILABLE body ops s') as [_ Hen].
    destruct (enabled (self (exec_all _ _ _ _))); [|done].
    by specialize (Hen eq_refl). }
  split; [done|]. by apply start_disabled.
Qed.

Lemma failed_start_disables_for_good_witness :
  ∃ s',
    start true (Raises DriverError) (fresh true true) = (s', Return false) ∧
    response_enabled (button_status (Some (self s'))) = false ∧
    let later :=
      exec_all true plain_body
        [op_register_handler "A" 7; op_stop; op_start (Returns plain_chip);
         op_run [reads_events [press 5]]] s' in
    response_enabled (button_status (Some (self later))) = false ∧
    start true (Returns plain_chip) later
    = ({| self := self later;
          trace := trace later ++ [Logged warning_disabled] |}, Return false).
Proof.
  destruct (failed_start_disables_for_good true plain_body
              (Raises DriverError) (fresh true true) DriverError)
    as (s' & E & Hen & Hlater); [reflexivity..|].
  exists s'. split; [exact E|]. split; [exact Hen|]. apply Hlater.
Defined.

(** C4: an edge event whose line offset is not in the table invokes no
    callback and leaves the manager as it was (the pass logs the failed
    lookup); the loop over the batch goes on with the next event, and a
    batch of such events ends with the poll loop going on to its next
    read.  So an event with a known offset that follows, in the same
    batch or in the next one, has the callbacks of its label invoked. *)
Theorem unknown_offset_is_skipped
    (body : Callback → string → list Event → Behaviour) :
  (∀ acts event rest s offs,
     let s1 := (perform acts s).1 in
     let skipped :=
       {| self := self s1;
          trace := trace s1 ++ [Logged (error_event ValueError)] |} in
     running (self s1) = true →
     offsets (self s1) = Some offs →
     line_offset event ∉ offs →
     _handle_button_event body event s1 = (skipped, Return tt) ∧
     calls (trace skipped) = calls (trace s1) ∧
     for_events body ((acts, event) :: rest) s = for_events body rest skipped) ∧
  (∀ rd reads s r offs unknowns,
     preceding rd = [] →
     running (self s) = true →
     request (self s) = Some r →
     offsets (self s) = Some offs →
     read_edge_events_timeout rd = Returns ((λ e, ([], e)) <$> unknowns) →
     Forall (λ e, line_offset e ∉ offs) unknowns →
     ∃ s', while_running body (rd :: reads) s = while_running body reads s' ∧
           self s' = self s ∧ calls (trace s') = calls (trace s)) ∧
  (∀ unknown known s offs i label cbs,
     running (self s) = true →
     offsets (self s) = Some offs →
     NoDup offs →
     line_offset unknown ∉ offs →
     offs !! i = Some (line_offset known) →
     LABELS !! i = Some label →
     handlers (self s) !! label = Some cbs →
     calls (trace (for_events body [([], unknown); ([], known)] s).1)
     = calls (trace s) ++ ((λ h, (h, label)) <$> cbs)) ∧
  (∀ rd1 rd2 unknown known s r offs i label cbs,
     preceding rd1 = [] →
     read_edge_events_timeout rd1 = Returns [([], unknown)] →
     preceding rd2 = [] →
     read_edge_events_timeout rd2 = Returns [([], known)] →
     running (self s) = true →
     request (self s) = Some r →
     offsets (self s) = Some offs →
     NoDup offs →
     line_offset unknown ∉ offs →
     offs !! i = Some (line_offset known) →
     LABELS !! i = Some label →
     handlers (self s) !! label = Some cbs →
     calls (trace (while_running body [rd1; rd2] s).1)
     = calls (trace s) ++ ((λ h, (h, label)) <$> cbs)).
Proof.
  assert (∀ rd reads s r offs unknowns,
     preceding rd = [] →
     running (self s) = true →
     request (self s) = Some r →
     offsets (self s) = Some offs →
     read_edge_events_timeout rd = Returns ((λ e, ([], e)) <$> unknowns) →
     Forall (λ e, line_offset e ∉ offs) unknowns →
     ∃ s', while_running body (rd :: reads) s = while_running body reads s' ∧
           self s' = self s ∧ calls (trace s') = calls (trace s)) as Hbatch.
  { intros rd reads s r offs unknowns Hpre Hr Hq Ho Hrd Hu.
    set (s2 := {| self := self s;
                  trace := trace s ++ [Driver (request_read_edge_events true)] |}).
    destruct (for_events_unknown body unknowns offs s2) as (s' & E & S & C);
      [done..|].
    exists s'. split_and!; [|done|].
    + rewrite (while_running_cons body rd reads s s r
                 ((λ e, ([], e)) <$> unknowns) s2);
        [by rewrite E|by rewrite Hpre|done|done|by apply read_events_timeout].
    + rewrite C. subst s2. simpl. rewrite calls_app. simpl. by rewrite app_nil_r. }
  split_and!; [|exact Hbatch|..].
  - intros acts event rest s offs s1 skipped Hr Ho Hn.
    assert (_handle_button_event body event s1 = (skipped, Return tt)) as Hh
      by by apply (_handle_button_event_unknown body s1 event offs).
    split_and!; [done| |].
    + subst skipped. simpl. rewrite calls_app. simpl. by rewrite app_nil_r.
    + rewrite for_events_cons by done. fold s1. by rewrite Hh.
  - intros unknown known s offs i label cbs Hr Ho Hnd Hn Hi Hl Hh.
    rewrite for_events_cons by done. simpl perform. cbn [fst mret M_ret].
    rewrite (_handle_button_event_unknown body s unknown offs) by done.
    cbn [fst]. set (skipped := {| self := self s; trace := _ |}).
    rewrite for_events_single by done.
    destruct (pass_calls body skipped known offs i label cbs) as (s' & E & C);
      [done..|].
    rewrite E. cbn [fst]. rewrite C. subst skipped. simpl.
    rewrite calls_app. simpl. by rewrite app_nil_r.
  - intros rd1 rd2 unknown known s r offs i label cbs
      Hp1 Hr1 Hp2 Hr2 Hr Hq Ho Hnd Hn Hi Hl Hh.
    destruct (Hbatch rd1 [rd2] s r offs [unknown]) as (s1 & -> & S1 & C1);
      [done..|by constructor|].
    set (s2 := {| self := self s1;
                  trace := trace s1 ++ [Driver (request_read_edge_events true)] |}).
    rewrite (while_running_cons body rd2 [] s1 s1 r [([], known)] s2);
      [|by rewrite Hp2|by rewrite S1..|by apply read_events_timeout].
    rewrite while_running_nil_state, for_events_single by (simpl; by rewrite S1).
    destruct (pass_calls body s2 known offs i label cbs) as (s' & E & C);
      [simpl; by rewrite S1|done..|simpl; by rewrite S1|].
    rewrite E. cbn [fst]. rewrite C. subst s2. simpl.
    rewrite calls_app, C1. simpl. by rewrite app_nil_r.
Qed.

Lemma unknown_offset_is_skipped_witness :
  (_handle_button_event rough_body (press 7) busy
   = ({| self := busy_manager; trace := [Logged (error_event ValueError)] |},
      Return tt) ∧
   for_events rough_body [([], press 7); ([], press 6)] busy
   = for_events rough_body [([], press 6)]
       {| self := busy_manager; trace := [Logged (error_event ValueError)] |}) ∧
  (∃ s', while_running rough_body
           [reads_events [press 7; press 9]; reads_events [press 6]] busy
         = while_running rough_body [reads_events [press 6]] s' ∧
         self s' = busy_manager ∧ calls (trace s') = []) ∧
  calls (trace (for_events rough_body [([], press 7); ([], press 6)] busy).1)
  = [(1, "B"); (2, "B"); (1, "B")] ∧
  calls (trace (while_running rough_body
                  [reads_events [press 7]; reads_events [press 6]] busy).1)
  = [(1, "B"); (2, "B"); (1, "B")].
Proof.
  assert (7%Z ∉ BUTTONS) as H7.
  { vm_compute. intros H. by apply list_elem_of_In in H as [|[|[|[|[]]]]]. }
  assert (9%Z ∉ BUTTONS) as H9.
  { vm_compute. intros H. by apply list_elem_of_In in H as [|[|[|[|[]]]]]. }
  assert (NoDup BUTTONS) as Hnd.
  { apply NoDup_ListNoDup. repeat constructor; simpl; intuition discriminate. }
  split; [|split; [|split]].
  - destruct (proj1 (unknown_offset_is_skipped rough_body)
                [] (press 7) [([], press 6)] busy BUTTONS) as (H1 & _ & H3);
      [reflexivity|reflexivity|exact H7|by split].
  - apply (proj1 (proj2 (unknown_offset_is_skipped rough_body))
             (reads_events [press 7; press 9]) [reads_events [press 6]] busy
             plain_request BUTTONS [press 7; press 9]); try reflexivity.
    by repeat constructor.
  - apply (proj1 (proj2 (proj2 (unknown_offset_is_skipped rough_body)))
             (press 7) (press 6) busy BUTTONS 1 "B" [1; 2; 1]);
      try reflexivity; done.
  - apply (proj2 (proj2 (proj2 (unknown_offset_is_skipped rough_body)))
             (reads_events [press 7]) (reads_events [press 6])
             (press 7) (press 6) busy plain_request BUTTONS 1 "B" [1; 2; 1]);
      try reflexivity; done.
Defined.

(** C5: a callback that raises during a pass is caught and the failure
    is logged, right after what the callback did; the callbacks after it
    in the snapshot are still invoked, the pass returns, and the loop
    over the batch goes on with the next event. *)
Theorem raising_handler_is_contained
    (body : Callback → string → list Event → Behaviour) (label : string) :
  (∀ h s, ∃ s' t,
     guarded_call body label h s = (s', Return tt) ∧ calls t = [] ∧
     trace s' = trace s ++ Called h label :: t ++
                match raised (body h label (trace s)) with
                | Some e => [Logged (error_handler label e)]
                | None => []
                end) ∧
  (∀ hs s,
     for_handlers body label hs s
     = (foldl (λ s h, (guarded_call body label h s).1) s hs, Return tt) ∧
     calls (trace (for_handlers body label hs s).1)
     = calls (trace s) ++ ((λ h, (h, label)) <$> hs)) ∧
  (∀ acts event rest s,
     running (self (perform acts s).1) = true →
     ∃ s', _handle_button_event body event (perform acts s).1 = (s', Return tt) ∧
           for_events body ((acts, event) :: rest) s = for_events body rest s').
Proof.
  split_and!.
  - intros h s. apply guarded_call_trace.
  - intros hs s. split; [apply for_handlers_foldl|apply for_handlers_calls].
  - intros acts event rest s Hr. eexists. split.
    + apply returns_unit_eq, returns__handle_button_event.
    + by apply for_events_cons.
Qed.

Lemma raising_handler_is_contained_witness :
  calls (trace (_run rough_body [reads_events [press 6; press 6]] busy).1)
  = [(1, "B"); (2, "B"); (1, "B"); (1, "B"); (2, "B"); (1, "B")] ∧
  ∃ s', _handle_button_event rough_body (press 6) (perform [] busy).1
        = (s', Return tt) ∧
        for_events rough_body [([], press 6); ([], press 6)] busy
        = for_events rough_body [([], press 6)] s'.
Proof.
  split; [reflexivity|].
  apply (proj2 (proj2 (raising_handler_is_contained rough_body "B"))
           [] (press 6) [([], press 6)] busy).
  reflexivity.
Defined.

(** C6: once [start()] has returned true the status route reports
    running; [stop()] returns, from any state whatever (so also when
    called a second time, or on a manager never started), and the status
    route then reports not running. *)
Theorem status_running_after_start_and_stop :
  (∀ GPIOD_AVAILABLE hw s s',
     start GPIOD_AVAILABLE hw s = (s', Return true) →
     response_running (button_status (Some (self s'))) = Some true) ∧
  (∀ s, ∃ s1 s2,
     stop s = (s1, Return tt) ∧
     response_running (button_status (Some (self s1))) = Some false ∧
     stop s1 = (s2, Return tt) ∧
     response_running (button_status (Some (self s2))) = Some false) ∧
  (∀ GPIOD_AVAILABLE enable, ∃ s1,
     stop (fresh GPIOD_AVAILABLE enable) = (s1, Return tt) ∧
     response_running (button_status (Some (self s1))) = Some false).
Proof.
  split_and!.
  - intros G hw s s' Hs. apply start_true in Hs as (Hr & _). simpl. by rewrite Hr.
  - intros s. destruct (stop_returns s) as (s1 & E1 & R1 & _).
    destruct (stop_returns s1) as (s2 & E2 & R2 & _).
    exists s1, s2. simpl. by rewrite R1, R2.
  - intros G enable. destruct (stop_returns (fresh G enable)) as (s1 & E1 & R1 & _).
    exists s1. simpl. by rewrite R1.
Qed.

Lemma status_running_after_start_and_stop_witness :
  response_running
    (button_status
       (Some (self (start true (Returns plain_chip) (fresh true true)).1)))
  = Some true.
Proof.
  apply (proj1 status_running_after_start_and_stop
           true (Returns plain_chip) (fresh true true)).
  reflexivity.
Defined.

(** C7: in a batch, as soon as the running flag is found cleared at the
    test that precedes an event, the loop over the batch is left: that
    event and all events after it are not dispatched, and the batch
    ends in the state in which the flag was found cleared. *)
Theorem cleared_flag_abandons_batch
    (body : Callback → string → list Event → Behaviour)
    done_before acts event rest s s1 :
  for_events body done_before s = (s1, Return Exhausted) →
  running (self (perform acts s1).1) = false →
  for_events body (done_before ++ (acts, event) :: rest) s
  = ((perform acts s1).1, Return Break) ∧
  calls (trace (perform acts s1).1) = calls (trace s1) ∧
  ∀ more,
    for_events body ((done_before ++ (acts, event) :: rest) ++ more) s
    = ((perform acts s1).1, Return Break).
Proof.
  intros Hpre Hr.
  assert (for_events body (done_before ++ (acts, event) :: rest) s
          = ((perform acts s1).1, Return Break)) as Hb.
  { rewrite (for_events_app_Exhausted body _ _ s s1) by done.
    by apply for_events_break. }
  split_and!; [done|apply same_calls_perform|].
  intros more. by apply for_events_app_Break.
Qed.

Lemma cleared_flag_abandons_batch_witness :
  ∃ s1,
    for_events plain_body
      [([], press 6); ([clear_running], press 6); ([], press 5)] busy
    = ((perform [clear_running] s1).1, Return Break) ∧
    calls (trace (perform [clear_running] s1).1) = [(1, "B"); (2, "B"); (1, "B")].
Proof.
  eexists.
  destruct (cleared_flag_abandons_batch plain_body
              [([], press 6)] [clear_running] (press 6) [([], press 5)] busy
              _ eq_refl eq_refl) as (E & C & _).
  split; [exact E|]. rewrite C. reflexivity.
Defined.

(** C8: [unregister_handler] never raises and touches no sequence but
    that of its identity.  If the callback occurs in that sequence, its
    first occurrence is taken out; if the identity has no sequence or
    the callback does not occur in it, nothing at all changes. *)
Theorem unregister_handler_removes_first button callback s :
  ∃ s',
    unregister_handler button callback s = (s', Return tt) ∧
    (∀ other, other ≠ button →
              handlers (self s') !! other = handlers (self s) !! other) ∧
    (∀ cbs, handlers (self s) !! button = Some cbs → callback ∈ cbs →
            ∃ before after,
              cbs = before ++ callback :: after ∧ (callback ∉ before) ∧
              handlers (self s') !! button = Some (before ++ after)) ∧
    ((∀ cbs, handlers (self s) !! button = Some cbs → callback ∉ cbs) →
     s' = s).
Proof.
  destruct (handlers (self s) !! button) as [cbs|] eqn:Hb.
  - destruct (decide (callback ∈ cbs)) as [Hin|Hn].
    + eexists. split; [by apply unregister_handler_present|]. simpl.
      split_and!.
      * intros other Hne. by apply lookup_insert_ne.
      * intros ? [= <-] _.
        destruct (remove_first callback cbs Hin) as (l1 & l2 & E & Hl1 & Hr).
        exists l1, l2. split_and!; [done..|]. by rewrite lookup_insert_eq, Hr.
      * intros Habs. by destruct (Habs cbs).
    + exists s. split_and!; [|done| |done].
      * apply unregister_handler_absent. intros ?. rewrite Hb. by intros [= <-].
      * by intros ? [= <-] ?.
  - exists s. split_and!; [|done..].
    apply unregister_handler_absent. intros ?. by rewrite Hb.
Qed.

Lemma unregister_handler_removes_first_witness :
  ∃ s',
    unregister_handler "B" 1 busy = (s', Return tt) ∧
    handlers (self s') !! "B" = Some [2; 1] ∧
    unregister_handler "B" 9 busy = (busy, Return tt) ∧
    unregister_handler "E" 1 busy = (busy, Return tt).
Proof.
  destruct (unregister_handler_removes_first "B" 1 busy) as (s' & E & _ & H & _).
  destruct (unregister_handler_removes_first "B" 9 busy) as (s9 & E9 & _ & _ & H9).
  destruct (unregister_handler_removes_first "E" 1 busy) as (sE & EE & _ & _ & HE).
  exists s'. split; [exact E|]. split_and!.
  - assert (handlers (self busy) !! "B" = Some [1; 2; 1]) as Hb by reflexivity.
    destruct (H [1; 2; 1] Hb (list_elem_of_here _ _))
      as (before & after & Hc & Hn & Hs').
    rewrite Hs'. destruct before as [|x before].
    + by injection Hc as <-.
    + injection Hc as <- _. destruct Hn. apply list_elem_of_here.
  - rewrite E9. f_equal. apply H9. intros cbs [= <-].
    vm_compute. intros Hin. by apply list_elem_of_In in Hin as [|[|[|[]]]].
  - rewrite EE. f_equal. apply HE. intros cbs. by vm_compute.
Defined.




(** C10: the keys of the handler registry are the labels A, B, C, D
    when the manager is constructed, and no operation (registration,
    removal, a dispatch pass, [start], [stop], the poll thread) adds or
    removes a key. *)
Theorem registry_keys_are_the_labels
    (GPIOD_AVAILABLE : bool)
    (body : Callback → string → list Event → Behaviour) :
  (∀ enable,
     dom (handlers (__init__ GPIOD_AVAILABLE enable)) = list_to_set LABELS) ∧
  (∀ op s,
     dom (handlers (self (exec GPIOD_AVAILABLE body op s)))
     = dom (handlers (self s))) ∧
  (∀ ops enable,
     dom (handlers (self (exec_all GPIOD_AVAILABLE body ops
                            (fresh GPIOD_AVAILABLE enable))))
     = list_to_set LABELS).
Proof.
  assert (∀ enable,
            dom (handlers (__init__ GPIOD_AVAILABLE enable))
            = list_to_set LABELS) as Hinit by (intros enable; by vm_compute).
  split_and!; [done| |].
  - intros op s. apply lifetime_frame_exec.
  - intros ops enable.
    destruct (lifetime_frame_exec_all GPIOD_AVAILABLE body ops
                (fresh GPIOD_AVAILABLE enable)) as [-> _].
    apply Hinit.
Qed.

(** * Further properties *)

(** X1: between any two calls, on a manager used in any way since it was
    constructed: the registry has the four labels as keys; the manager
    is enabled only if gpiod could be imported; it is running only if a
    thread was made and the offset table exists; it holds a session only
    if the table exists; and the table has one entry per button. *)
Theorem manager_stays_well_formed
    (GPIOD_AVAILABLE : bool)
    (body : Callback → string → list Event → Behaviour) enable ops :
  let m := self (exec_all GPIOD_AVAILABLE body ops
                   (fresh GPIOD_AVAILABLE enable)) in
  dom (handlers m) = list_to_set LABELS ∧
  (enabled m = true → GPIOD_AVAILABLE = true) ∧
  (running m = true → thread m = Some DaemonThread) ∧
  (running m = true → is_Some (offsets m)) ∧
  (is_Some (request m) → is_Some (offsets m)) ∧
  (∀ offs, offsets m = Some offs → length offs = length BUTTONS).
Proof. apply exec_all_well_formed, fresh_well_formed. Qed.

Lemma manager_stays_well_formed_witness :
  let m := self (exec_all true plain_body
                   [op_start (Returns plain_chip); op_register_handler "C" 3;
                    op_run [reads_events [press 16]]]
                   (fresh true true)) in
  thread m = Some DaemonThread ∧ is_Some (offsets m).
Proof.
  intros m.
  destruct (manager_stays_well_formed true plain_body true
              [op_start (Returns plain_chip); op_register_handler "C" 3;
               op_run [reads_events [press 16]]])
    as (_ & _ & H3 & H4 & _ & _).
  split.
  - apply H3. reflexivity.
  - apply H4. reflexivity.
Defined.

(** X2: a [start()] that returns true found the manager enabled and not
    running, with gpiod importable; the chip was found, entry i of the
    new offset table is the offset the chip gave for button i, the
    session is the request the chip granted for the distinct offsets of
    the table, and the manager is running with a thread; the registry
    and the enabled flag are as they were. *)
Theorem start_true_builds_table (GPIOD_AVAILABLE : bool) hw s s' :
  start GPIOD_AVAILABLE hw s = (s', Return true) →
  enabled (self s) = true ∧ running (self s) = false ∧
  GPIOD_AVAILABLE = true ∧
  ∃ chip offs req,
    hw = Returns chip ∧
    Forall2 (λ btn o, line_offset_from_id chip btn = Returns o) BUTTONS offs ∧
    request_lines chip (fromkeys offs) = Returns req ∧
    self s' = {| enabled := true;
                 thread := Some DaemonThread;
                 running := true;
                 handlers := handlers (self s);
                 request := Some req;
                 offsets := Some offs |}.
Proof.
  intros Hs. destruct (start_cases GPIOD_AVAILABLE hw s) as (s1 & b & E & _ & Hb).
  rewrite Hs in E. injection E as <- <-.
  destruct Hb as (He & Hr & HG & chip & offs & req & Hhw & [Hf Hq] & Hself).
  split_and!; try done. exists chip, offs, req. split_and!; try done.
  rewrite Hself. unfold set_thread, set_running, set_request, set_offsets.
  simpl. by rewrite He.
Qed.

Lemma start_true_builds_table_witness :
  ∃ chip offs req,
    Returns plain_chip = Returns chip ∧
    Forall2 (λ btn o, line_offset_from_id chip btn = Returns o) BUTTONS offs ∧
    request_lines chip (fromkeys offs) = Returns req ∧
    self (start true (Returns plain_chip) (fresh true true)).1
    = {| enabled := true;
         thread := Some DaemonThread;
         running := true;
         handlers := handlers (self (fresh true true));
         request := Some req;
         offsets := Some offs |}.
Proof.
  apply (start_true_builds_table true (Returns plain_chip) (fresh true true)).
  reflexivity.
Defined.



(** X4: after a [start()] that returned true, another [start()] returns
    false and does nothing but log a warning: the driver is not called
    and no second thread is made. *)
Theorem second_start_is_refused (GPIOD_AVAILABLE : bool) hw hw' s s' :
  start GPIOD_AVAILABLE hw s = (s', Return true) →
  start GPIOD_AVAILABLE hw' s'
  = ({| self := self s';
        trace := trace s' ++ [Logged warning_already_running] |},
     Return false).
Proof.
  intros Hs. destruct (start_cases GPIOD_AVAILABLE hw s) as (s1 & b & E & _ & Hb).
  rewrite Hs in E. injection E as <- <-.
  destruct Hb as (He & _ & _ & chip & offs & req & _ & _ & Hself).
  apply start_already_running; rewrite Hself; [exact He|done].
Qed.

Lemma second_start_is_refused_witness :
  let s' := (start true (Returns plain_chip) (fresh true true)).1 in
  start true (Returns plain_chip) s'
  = ({| self := self s';
        trace := trace s' ++ [Logged warning_already_running] |},
     Return false).
Proof.
  intros s'.
  apply (second_start_is_refused true (Returns plain_chip) (Returns plain_chip)
           (fresh true true) s').
  reflexivity.
Defined.

(** X5: a manager that was started and then stopped can be started
    again: with a chip that resolves the buttons and grants the request,
    [start()] returns true, with the new table and the new session. *)
Theorem restart_after_stop (GPIOD_AVAILABLE : bool) hw s s1 s2 chip offs req :
  start GPIOD_AVAILABLE hw s = (s1, Return true) →
  stop s1 = (s2, Return tt) →
  acquires chip offs req →
  ∃ s3,
    start GPIOD_AVAILABLE (Returns chip) s2 = (s3, Return true) ∧
    running (self s3) = true ∧
    offsets (self s3) = Some offs ∧
    request (self s3) = Some req.
Proof.
  intros Hstart Hstop Hacq.
  destruct (start_cases GPIOD_AVAILABLE hw s) as (s1' & b & E1 & _ & Hb).
  rewrite Hstart in E1. injection E1 as <- <-.
  destruct Hb as (He1 & _ & HG & chip0 & offs0 & req0 & _ & _ & Hself).
  subst GPIOD_AVAILABLE.
  destruct (stop_returns s1) as (s2' & E & Hr & He & _).
  rewrite Hstop in E. injection E as <-.
  eexists. split.
  - apply start_success; [rewrite He, Hself; exact He1|done|].
    by rewrite (_initialize_gpio_acquires chip offs req s2 Hacq).
  - by rewrite (_initialize_gpio_acquires chip offs req s2 Hacq).
Qed.

Lemma restart_after_stop_witness :
  let s1 := (start true (Returns plain_chip) (fresh true true)).1 in
  let s2 := (stop s1).1 in
  ∃ s3,
    start true (Returns plain_chip) s2 = (s3, Return true) ∧
    running (self s3) = true ∧
    offsets (self s3) = Some BUTTONS ∧
    request (self s3) = Some plain_request.
Proof.
  intros s1 s2.
  apply (restart_after_stop true (Returns plain_chip) (fresh true true) s1 s2
           plain_chip BUTTONS plain_request); try reflexivity.
  split; [repeat constructor|reflexivity].
Defined.

(** X6: when an exception escapes the loop of the poll thread (a read
    of edge events that raises), the thread logs it, clears the running
    flag, releases the session and ends; no callback is invoked on the
    way out and the manager stays enabled, so that a later [start()]
    with a working chip returns true. *)
Theorem read_error_ends_thread_not_manager
    (body : Callback → string → list Event → Behaviour)
    reads s s1 e chip offs req :
  while_running body reads s = (s1, Raise e) →
  enabled (self s) = true →
  acquires chip offs req →
  ∃ s2 s3 t,
    _run body reads s = (s2, Return tt) ∧
    trace s2 = trace s1 ++ Logged (error_thread e) :: t ∧ calls t = [] ∧
    running (self s2) = false ∧
    released (self s2) ∧
    enabled (self s2) = true ∧
    start true (Returns chip) s2 = (s3, Return true).
Proof.
  intros Hw He Hacq.
  pose proof (wear__run body reads s) as (Hen & _).
  rewrite (_run_Raise body reads s s1 e Hw) in *. simpl in Hen.
  set (s1' := {| self := set_running false (self s1); trace := _ |}) in *.
  destruct (_cleanup_gpio_released s1') as [Hr Hrel].
  destruct (_cleanup_gpio_trace s1') as (t & Ht & Hc).
  eexists _, _, t. split_and!; try done.
  - rewrite Ht. subst s1'. simpl. by rewrite <-app_assoc.
  - congruence.
  - apply start_success; [congruence|done|].
    by rewrite (_initialize_gpio_acquires chip offs req _ Hacq).
Qed.

Lemma read_error_ends_thread_not_manager_witness :
  ∃ s2 s3,
    _run plain_body [read_fails] busy = (s2, Return tt) ∧
    running (self s2) = false ∧
    start true (Returns plain_chip) s2 = (s3, Return true).
Proof.
  destruct (read_error_ends_thread_not_manager plain_body [read_fails] busy
              (while_running plain_body [read_fails] busy).1 DriverError
              plain_chip BUTTONS plain_request)
    as (s2 & s3 & t & E & _ & _ & Hr & _ & _ & Hs);
    [reflexivity|reflexivity|split; [repeat constructor|reflexivity]|].
  by exists s2, s3.
Defined.

(** X7: when the primary context has cleared the running flag before the
    poll thread tests it, the thread leaves the loop without reading
    from the driver again and without invoking a callback; it releases
    the session and ends. *)
Theorem stop_request_ends_thread
    (body : Callback → string → list Event → Behaviour) rd reads s :
  clear_running ∈ preceding rd →
  ∃ s',
    _run body (rd :: reads) s = (s', Return tt) ∧
    s' = (_cleanup_gpio (perform (preceding rd) s).1).1 ∧
    running (self s') = false ∧
    released (self s') ∧
    calls (trace s') = calls (trace s).
Proof.
  intros Hin. pose proof (perform_clears _ s Hin) as Hr.
  eexists. split; [by apply _run_Return, while_running_stopped|].
  split; [done|].
  destruct (_cleanup_gpio_released (perform (preceding rd) s).1) as [-> Hrel].
  destruct (_cleanup_gpio_trace (perform (preceding rd) s).1) as (t & -> & Hc).
  split_and!; try done.
  rewrite calls_app, Hc, app_nil_r. apply same_calls_perform.
Qed.

Lemma stop_request_ends_thread_witness :
  ∃ s',
    _run plain_body
      [{| preceding := [call_register_handler "A" 4; clear_running];
          read_edge_events_timeout := Returns [([], press 6)];
          wait_edge_events := None;
          read_edge_events := Returns [] |}] busy = (s', Return tt) ∧
    running (self s') = false ∧ request (self s') = None ∧
    calls (trace s') = [].
Proof.
  destruct (stop_request_ends_thread plain_body
              {| preceding := [call_register_handler "A" 4; clear_running];
                 read_edge_events_timeout := Returns [([], press 6)];
                 wait_edge_events := None;
                 read_edge_events := Returns [] |} [] busy)
    as (s' & E & -> & Hr & _ & Hc).
  - apply list_elem_of_In. simpl. tauto.
  - eexists. split; [exact E|]. split; [exact Hr|]. split; [reflexivity|exact Hc].
Defined.

(** X8: when [read_edge_events(timeout_ms=1000)] raises [TypeError], the
    loop falls back on the older driver interface.  If
    [wait_edge_events] exists and answers false, nothing is read or
    dispatched and the loop goes on with its next turn; if it answers
    true, or does not exist, the events of [read_edge_events()] are
    dispatched as in any other turn. *)
Theorem type_error_falls_back
    (body : Callback → string → list Event → Behaviour) rd reads s r :
  let s1 := (perform (preceding rd) s).1 in
  running (self s1) = true →
  request (self s1) = Some r →
  read_edge_events_timeout rd = Raises TypeError →
  (wait_edge_events rd = Some (Returns false) →
   while_running body (rd :: reads) s
   = while_running body reads
       {| self := self s1;
          trace := trace s1 ++ [Driver (request_read_edge_events true);
                                Driver request_wait_edge_events] |}) ∧
  (∀ events,
     wait_edge_events rd = Some (Returns true) →
     read_edge_events rd = Returns events →
     while_running body (rd :: reads) s
     = while_running body reads
         (for_events body events
            {| self := self s1;
               trace := trace s1 ++ [Driver (request_read_edge_events true);
                                     Driver request_wait_edge_events;
                                     Driver (request_read_edge_events false)] |}).1) ∧
  (∀ events,
     wait_edge_events rd = None →
     read_edge_events rd = Returns events →
     while_running body (rd :: reads) s
     = while_running body reads
         (for_events body events
            {| self := self s1;
               trace := trace s1 ++ [Driver (request_read_edge_events true);
                                     Driver (request_read_edge_events false)] |}).1).
Proof.
  intros s1 Hr Hq Ht. split_and!.
  - intros Hw. apply (while_running_continue body rd reads s s1 r); try done.
    unfold read_events. mrun. rewrite Ht. simpl. rewrite Hw. simpl.
    by rewrite <-app_assoc.
  - intros events Hw He.
    apply (while_running_cons body rd reads s s1 r events); try done.
    unfold read_events. mrun. rewrite Ht. simpl. rewrite Hw. simpl.
    rewrite He. simpl. by rewrite <-!app_assoc.
  - intros events Hw He.
    apply (while_running_cons body rd reads s s1 r events); try done.
    unfold read_events. mrun. rewrite Ht. simpl. rewrite Hw. simpl.
    rewrite He. simpl. by rewrite <-!app_assoc.
Qed.

Lemma type_error_falls_back_witness :
  let old_driver w events :=
    {| preceding := [];
       read_edge_events_timeout := Raises TypeError;
       wait_edge_events := w;
       read_edge_events := Returns events |} in
  calls (trace (while_running plain_body
                  [old_driver (Some (Returns false)) [([], press 6)];
                   old_driver None [([], press 6)]] busy).1)
  = calls (trace (while_running plain_body
                    [old_driver None [([], press 6)]] busy).1).
Proof.
  intros old_driver.
  rewrite (proj1 (type_error_falls_back plain_body
                    (old_driver (Some (Returns false)) [([], press 6)])
                    [old_driver None [([], press 6)]] busy plain_request
                    eq_refl eq_refl eq_refl) eq_refl).
  reflexivity.
Defined.

(** X9: a manager constructed with [enabled=False], or when gpiod could
    not be imported, is inert whatever is done with it afterwards: the
    driver is never called, no thread is made, no callback is ever
    invoked (events handed to it are ignored for want of an offset
    table), the status route reports it disabled and not running, and
    every [start()] returns false with a warning. *)
Theorem disabled_manager_is_inert
    (GPIOD_AVAILABLE : bool)
    (body : Callback → string → list Event → Behaviour) enable ops :
  enable && GPIOD_AVAILABLE = false →
  let s := exec_all GPIOD_AVAILABLE body ops (fresh GPIOD_AVAILABLE enable) in
  driver_calls (trace s) = [] ∧
  calls (trace s) = [] ∧
  thread (self s) = None ∧
  response_enabled (button_status (Some (self s))) = false ∧
  ∀ hw,
    start GPIOD_AVAILABLE hw s
    = ({| self := self s; trace := trace s ++ [Logged warning_disabled] |},
       Return false).
Proof.
  intros Hd s.
  destruct (idle_frame_exec_all GPIOD_AVAILABLE body ops
              (fresh GPIOD_AVAILABLE enable)) as (He & Hq & Ho & Ht & Hdc & Hc);
    [done..|].
  split_and!; try done. intros hw. by apply start_disabled.
Qed.

Lemma disabled_manager_is_inert_witness :
  let s := exec_all false rough_body
             [op_register_handler "B" 1; op_start (Returns plain_chip);
              op_handle_button_event (press 6);
              op_run [reads_events [press 6]]; op_stop]
             (fresh false true) in
  driver_calls (trace s) = [] ∧ calls (trace s) = [] ∧ thread (self s) = None.
Proof.
  intros s.
  destruct (disabled_manager_is_inert false rough_body true
              [op_register_handler "B" 1; op_start (Returns plain_chip);
               op_handle_button_event (press 6);
               op_run [reads_events [press 6]]; op_stop] eq_refl)
    as (H1 & H2 & H3 & _).
  by split_and!.
Defined.

(** X10: [stop()] asks the driver to release the session it holds.  When
    [release()] returns, the handle is cleared and a second [stop()]
    does not call the driver again.  When [release()] raises, [stop()]
    still returns: it logs the error and keeps the handle, so that a
    second [stop()] calls [release()] once more. *)
Theorem stop_releases_session s r :
  request (self s) = Some r →
  (release r = Returns tt →
   ∃ s1 t1 t2,
     stop s = (s1, Return tt) ∧ request (self s1) = None ∧
     trace s1 = trace s ++ t1 ∧ driver_calls t1 = [request_release] ∧
     trace (stop s1).1 = trace s1 ++ t2 ∧ driver_calls t2 = []) ∧
  (∀ e, release r = Raises e →
   ∃ s1 t1 t2,
     stop s = (s1, Return tt) ∧ request (self s1) = Some r ∧
     trace s1 = trace s ++ t1 ∧ driver_calls t1 = [request_release] ∧
     last t1 = Some (Logged (error_releasing e)) ∧
     trace (stop s1).1 = trace s1 ++ t2 ∧ driver_calls t2 = [request_release]).
Proof.
  intros Hq. unfold stop, _cleanup_gpio. mrun. split.
  - intros Hrel.
    destruct s as [[en [t|] ru hs rq offs] tr]; simpl in *; subst;
      rewrite Hrel; simpl;
      (eexists _, _, _; split; [reflexivity|]); simpl;
      (split_and!; rewrite <-?app_assoc;
       first [reflexivity|symmetry; apply app_nil_r]).
  - intros e Hrel.
    destruct s as [[en [t|] ru hs rq offs] tr]; simpl in *; subst;
      rewrite Hrel; simpl;
      (eexists _, _, _; split; [reflexivity|]); simpl; rewrite ?Hrel; simpl;
      (split_and!; rewrite <-?app_assoc;
       first [reflexivity|symmetry; apply app_nil_r]).
Qed.

Lemma stop_releases_session_witness :
  (∃ s1 t1 t2,
     stop busy = (s1, Return tt) ∧ request (self s1) = None ∧
     trace s1 = trace busy ++ t1 ∧ driver_calls t1 = [request_release] ∧
     trace (stop s1).1 = trace s1 ++ t2 ∧ driver_calls t2 = []).
Proof.
  apply (proj1 (stop_releases_session busy plain_request eq_refl)).
  reflexivity.
Defined.

(** X11: the callbacks a pass invokes are those the registry holds for
    the label of the event, in the order of the sequence: on any
    manager, for any event and whatever the callbacks do, the
    invocations added by [_handle_button_event] are [expected_calls] of
    the manager as it was when the pass began.  No callback is invoked
    when there is no offset table, when the offset is not in the table,
    or when its position names no button. *)
Theorem pass_invokes_expected_calls
    (body : Callback → string → list Event → Behaviour) event s :
  ∃ s',
    _handle_button_event body event s = (s', Return tt) ∧
    calls (trace s') = calls (trace s) ++ expected_calls (self s) event.
Proof.
  eexists. split; [apply returns_unit_eq, returns__handle_button_event|].
  apply pass_calls_expected.
Qed.

(** X12: when the registered callbacks leave the manager alone and the
    primary context is idle, the poll thread of a running manager with a
    session turns the events the driver returns, batch after batch, into
    exactly the expected invocations, in the order of the events; the
    manager itself is unchanged and the thread is then waiting for the
    next read. *)
Theorem poll_thread_invokes_expected_calls
    (body : Callback → string → list Event → Behaviour) reads batches s r :
  Forall2 returns_events reads batches →
  running (self s) = true →
  request (self s) = Some r →
  registered_are_quiet body (self s) →
  ∃ s',
    _run body reads s = (s', Pending) ∧
    self s' = self s ∧
    calls (trace s')
    = calls (trace s) ++ concat (expected_calls (self s) <$> concat batches).
Proof.
  intros HF Hr Hq Hquiet.
  destruct (loop_calls_expected body reads batches s r) as (s' & E & S & C);
    [done..|].
  exists s'. split; [by apply _run_Pending|done].
Qed.

Lemma poll_thread_invokes_expected_calls_witness :
  ∃ s',
    _run plain_body [reads_events [press 6; press 7]; reads_events [press 6]] busy
    = (s', Pending) ∧
    self s' = self busy ∧
    calls (trace s')
    = [(1, "B"); (2, "B"); (1, "B"); (1, "B"); (2, "B"); (1, "B")].
Proof.
  apply (poll_thread_invokes_expected_calls plain_body
           [reads_events [press 6; press 7]; reads_events [press 6]]
           [[press 6; press 7]; [press 6]] busy plain_request);
    try reflexivity.
  - repeat constructor.
  - by intros label cbs h past _ _.
Defined.

(** X13: on a manager used in any way since it was constructed, a pass
    for an event whose offset is in the table never fails on a later
    lookup: the position of the offset names a button and a label, the
    registry has a sequence for that label, and the pass is the call of
    the callbacks of that sequence, after the log of the press. *)
Theorem table_offsets_always_resolve
    (GPIOD_AVAILABLE : bool)
    (body : Callback → string → list Event → Behaviour)
    enable ops event offs i :
  let s := exec_all GPIOD_AVAILABLE body ops (fresh GPIOD_AVAILABLE enable) in
  offsets (self s) = Some offs →
  index offs (line_offset event) = Some i →
  ∃ gpio label cbs,
    BUTTONS !! i = Some gpio ∧ LABELS !! i = Some label ∧
    handlers (self s) !! label = Some cbs ∧
    _handle_button_event body event s
    = for_handlers body label cbs
        {| self := self s;
           trace := trace s ++ [Logged (info_press gpio label)] |}.
Proof.
  intros s Ho Hi.
  destruct (exec_all_well_formed GPIOD_AVAILABLE body ops
              (fresh GPIOD_AVAILABLE enable) (fresh_well_formed _ _))
    as (Hdom & _ & _ & _ & _ & Hlen).
  fold s in Hdom, Hlen. specialize (Hlen offs Ho).
  assert (i < 4) as Hlt.
  { apply index_Some, lookup_lt_Some in Hi. rewrite Hlen in Hi. exact Hi. }
  destruct (lookup_lt_is_Some_2 BUTTONS i Hlt) as [gpio Hb].
  destruct (lookup_lt_is_Some_2 LABELS i Hlt) as [label Hl].
  assert (is_Some (handlers (self s) !! label)) as [cbs Hh].
  { apply elem_of_dom. rewrite Hdom. apply elem_of_list_to_set.
    by eapply list_elem_of_lookup_2. }
  exists gpio, label, cbs. split_and!; try done.
  by apply _handle_button_event_known with (offs := offs) (i := i).
Qed.

Lemma table_offsets_always_resolve_witness :
  let s := exec_all true plain_body
             [op_register_handler "C" 5; op_start (Returns plain_chip)]
             (fresh true true) in
  ∃ gpio label cbs,
    BUTTONS !! 2 = Some gpio ∧ LABELS !! 2 = Some label ∧
    handlers (self s) !! label = Some cbs ∧
    _handle_button_event plain_body (press 16) s
    = for_handlers plain_body label cbs
        {| self := self s;
           trace := trace s ++ [Logged (info_press gpio label)] |}.
Proof.
  intros s.
  apply (table_offsets_always_resolve true plain_body true
           [op_register_handler "C" 5; op_start (Returns plain_chip)]
           (press 16) BUTTONS 2); reflexivity.
Defined.

(** X14: when the table holds the same offset at two positions, an
    event with that offset is resolved to the first of them: the pass
    invokes the callbacks of the label at the first position that holds
    the offset, and the label at a later position with the same offset
    is never the one an event is resolved to. *)
Theorem press_resolves_to_first_match
    (body : Callback → string → list Event → Behaviour) s offs :
  offsets (self s) = Some offs →
  (∀ event i label cbs,
     offs !! i = Some (line_offset event) →
     (∀ j, j < i → offs !! j ≠ Some (line_offset event)) →
     LABELS !! i = Some label →
     handlers (self s) !! label = Some cbs →
     ∃ s', _handle_button_event body event s = (s', Return tt) ∧
           calls (trace s') = calls (trace s) ++ ((λ h, (h, label)) <$> cbs)) ∧
  (∀ i j label,
     i < j → is_Some (offs !! j) → offs !! i = offs !! j →
     LABELS !! j = Some label →
     ∀ event h,
       (h, label) ∉ expected_calls (self s) event).
Proof.
  intros Ho. split.
  - intros event i label cbs Hi Hfirst Hl Hh.
    destruct (LABELS_BUTTONS i label Hl) as [gpio Hb].
    rewrite (_handle_button_event_known body s event offs i gpio label cbs)
      by (try done; by apply index_lookup_first).
    eexists. split; [apply returns_unit_eq, returns_for_handlers|].
    rewrite for_handlers_calls. simpl. rewrite calls_app. simpl.
    by rewrite app_nil_r.
  - intros i j label Hij [o Hj] Heq Hl event h.
    unfold expected_calls, resolve. rewrite Ho.
    destruct (index offs (line_offset event)) as [k|] eqn:Hk; simpl;
      [|apply not_elem_of_nil].
    destruct (BUTTONS !! k); simpl; [|apply not_elem_of_nil].
    destruct (LABELS !! k) as [label'|] eqn:Hl'; [|apply not_elem_of_nil].
    intros Hin. apply list_elem_of_fmap in Hin as (h' & [= _ <-] & _).
    assert (k = j) as -> by (by eapply NoDup_lookup; [apply LABELS_NoDup|..]).
    apply (index_earliest _ _ _ Hk i Hij).
    rewrite Heq. by apply index_Some.
Qed.

Lemma press_resolves_to_first_match_witness :
  let s := {| self := set_offsets (Some [5; 5; 16; 24]%Z) busy_manager;
              trace := [] |} in
  (∃ s', _handle_button_event plain_body (press 5) s = (s', Return tt) ∧
         calls (trace s') = []) ∧
  ∀ event h, (h, "B") ∉ expected_calls (self s) event.
Proof.
  intros s.
  destruct (press_resolves_to_first_match plain_body s [5; 5; 16; 24]%Z eq_refl)
    as [H1 H2].
  split.
  - apply (H1 (press 5) 0 "A" []); try reflexivity. intros j Hj. lia.
  - apply (H2 0 1 "B"); [lia|by eexists|reflexivity|reflexivity].
Defined.

(** ** The registry and the wiring of the application *)

(** X15: registering a callback for a button and then unregistering it
    brings the manager back to where it was when the callback was not
    registered for that button before.  When it was, the first of its
    occurrences is the one removed: the sequence holds the same
    callbacks as often as before, with that occurrence moved to the end. *)
Theorem register_unregister_round_trip button callback s cbs :
  button ∈ LABELS →
  handlers (self s) !! button = Some cbs →
  ∃ s',
    (register_handler button callback ;;
     unregister_handler button callback) s = (s', Return tt) ∧
    trace s' = trace s ++ [Logged (info_registered button);
                           Logged (info_unregistered button)] ∧
    (callback ∉ cbs → self s' = self s) ∧
    (callback ∈ cbs →
     self s' = set_handlers
                 (<[button := remove callback cbs ++ [callback]]>
                    (handlers (self s))) (self s) ∧
     remove callback cbs ++ [callback] ≡ₚ cbs).
Proof.
  intros Hin Hb.
  erewrite bind_Return; [|by apply register_handler_valid].
  rewrite (unregister_handler_present button callback _ (cbs ++ [callback]));
    [|simpl; by rewrite lookup_insert_eq
     |apply elem_of_app; right; apply list_elem_of_here].
  eexists. split; [done|]. simpl. split; [by rewrite <-app_assoc|].
  rewrite insert_insert_eq, remove_app_last.
  unfold set_handlers at 1 2. simpl. split.
  - intros Hn. rewrite decide_False by done.
    rewrite insert_id by done. by destruct (self s).
  - intros Hc. rewrite decide_True by done. split; [done|].
    by apply remove_Permutation.
Qed.

Lemma register_unregister_round_trip_witness :
  (∃ s', (register_handler "B" 7 ;; unregister_handler "B" 7) busy
         = (s', Return tt) ∧ self s' = self busy) ∧
  (∃ s', (register_handler "B" 1 ;; unregister_handler "B" 1) busy
         = (s', Return tt) ∧
         handlers (self s') !! "B" = Some [2; 1; 1]).
Proof.
  assert ("B" ∈ LABELS) as HB by (apply list_elem_of_In; simpl; tauto).
  destruct (register_unregister_round_trip "B" 7 busy [1; 2; 1] HB eq_refl)
    as (s7 & E7 & _ & H7 & _).
  destruct (register_unregister_round_trip "B" 1 busy [1; 2; 1] HB eq_refl)
    as (s1 & E1 & _ & _ & H1).
  split.
  - exists s7. split; [exact E7|]. apply H7.
    intros H. by apply list_elem_of_In in H as [|[|[|[]]]].
  - exists s1. split; [exact E1|].
    destruct H1 as [-> _]; [apply list_elem_of_here|]. reflexivity.
Defined.

(** X16: [setup_button_handlers], called on a manager in any state it
    can have reached since it was constructed, returns and has appended
    the logging callback to the sequence of each of the four buttons;
    nothing else of the manager has changed.  (Called twice, it leaves
    two callbacks on every button: the registry does not deduplicate.) *)
Theorem setup_registers_on_every_button
    (GPIOD_AVAILABLE : bool)
    (body : Callback → string → list Event → Behaviour) enable ops cb :
  let s := exec_all GPIOD_AVAILABLE body ops (fresh GPIOD_AVAILABLE enable) in
  ∃ s',
    setup_button_handlers cb s = (s', Return [info_handlers_registered]) ∧
    (∀ label, label ∈ LABELS →
       ∃ cbs, handlers (self s) !! label = Some cbs ∧
              handlers (self s') !! label = Some (cbs ++ [cb])) ∧
    dom (handlers (self s')) = dom (handlers (self s)) ∧
    set_handlers (handlers (self s)) (self s') = self s.
Proof.
  intros s.
  destruct (setup_button_handlers_on_labels cb s) as (s' & E & H1 & H2 & H3 & _).
  - apply (exec_all_well_formed GPIOD_AVAILABLE body ops
             (fresh GPIOD_AVAILABLE enable) (fresh_well_formed _ _)).
  - by exists s'.
Qed.

Lemma setup_registers_on_every_button_witness :
  let s := exec_all true plain_body [op_register_handler "B" 1]
             (fresh true true) in
  ∃ s1,
    setup_button_handlers 8 s = (s1, Return [info_handlers_registered]) ∧
    handlers (self s1) !! "B" = Some [1; 8] ∧
    handlers (self s1) !! "D" = Some [8].
Proof.
  intros s.
  destruct (setup_registers_on_every_button true plain_body true
              [op_register_handler "B" 1] 8) as (s1 & E1 & H1 & _).
  exists s1. split; [exact E1|].
  destruct (H1 "B") as (cbs & Hb & ->); [apply list_elem_of_In; simpl; tauto|].
  destruct (H1 "D") as (cbd & Hd & ->); [apply list_elem_of_In; simpl; tauto|].
  vm_compute in Hb. vm_compute in Hd.
  injection Hb as <-. injection Hd as <-. done.
Defined.
